(** * clean-modules (main.go): discovery, sizing, formatting and deletion

    A shallow embedding of [src/main.go].  The filesystem is a static tree of
    entries; [filepath.Walk] is embedded from the Go standard library
    (path/filepath/path.go) because both [calculateDirSize] and
    [findNodeModules] are written as callbacks passed to it. *)

From Stdlib Require Import List String Ascii ZArith Lia Permutation Arith Bool Relations.
Import ListNotations.
Open Scope Z_scope.
Set Warnings "-register-all".
Set Warnings "-notation-overridden".


(* ------------------------------------------------------------------ *)
(** ** Go integers *)

(** Two's-complement wrap-around of Go's [int64] arithmetic. *)
Definition wrap64 (z : Z) : Z := (z + 2 ^ 63) mod 2 ^ 64 - 2 ^ 63.

Definition in_int64 (z : Z) : Prop := - 2 ^ 63 <= z < 2 ^ 63.

(* ------------------------------------------------------------------ *)
(** ** Filesystem model *)

Module FS.

(** An entry of the tree as [os.Lstat] sees it.  [NDir name size None] is a
    directory whose listing fails (permission denied); [NBroken name] is an
    entry on which [Lstat] itself fails (vanished, broken).  Children are in
    the order [readDirNames] returns them. *)
Inductive node : Type :=
| NFile (name : string) (size : Z)
| NDir (name : string) (size : Z) (kids : option (list node))
| NBroken (name : string).

(** A path is the list of its components, the root's first; Go's string is
    their [filepath.Join]. *)
Definition path := list string.

Inductive ioerr : Type :=
| ErrLstat (p : path)
| ErrReadDir (p : path).

(** [info.Name()], [info.IsDir()], [info.Size()]: the [os.FileInfo] of a
    successfully stat-ed entry is the entry itself. *)
Definition Name (t : node) : string :=
  match t with NFile n _ | NDir n _ _ | NBroken n => n end.

Definition IsDir (t : node) : bool :=
  match t with NDir _ _ _ => true | _ => false end.

Definition Size (t : node) : Z :=
  match t with NFile _ s | NDir _ s _ => s | NBroken _ => 0 end.

(** Induction over the nested children lists. *)
Section node_ind'.
Variable P : node -> Prop.
Hypothesis HFile : forall n s, P (NFile n s).
Hypothesis HDirErr : forall n s, P (NDir n s None).
Hypothesis HDir : forall n s ks, Forall P ks -> P (NDir n s (Some ks)).
Hypothesis HBroken : forall n, P (NBroken n).

Fixpoint node_ind' (t : node) : P t :=
  match t with
  | NFile n s => HFile n s
  | NDir n s None => HDirErr n s
  | NDir n s (Some ks) =>
      HDir n s ks
        ((fix go (l : list node) : Forall P l :=
            match l with
            | [] => Forall_nil P
            | k :: l' => Forall_cons k (node_ind' k) (go l')
            end) ks)
  | NBroken n => HBroken n
  end.
End node_ind'.

End FS.

(* ------------------------------------------------------------------ *)
(** ** filepath.Walk *)

Module Walk.
Import FS.

(** Return value of a [WalkFunc]: [nil], [filepath.SkipDir] or an error. *)
Inductive wret : Type :=
| WNil
| WSkipDir
| WErr (e : ioerr).

Section Walk.
Context {S : Type}.

(** A [WalkFunc] with the callback's captured state [S] threaded through:
    [fn s path info err]; [info] is [None] where Go passes a nil
    [os.FileInfo]. *)
Variable fn : S -> path -> option node -> option ioerr -> S * wret.

(** [walk] of path.go, fused with the [lstat] its callers perform:
    - lstat fails: [walkFn(path, nil, err)];
    - not a directory: [walkFn(path, info, nil)];
    - listing fails: [err1 := walkFn(path, info, err)], returned;
    - otherwise [walkFn(path, info, nil)], then the children in order;
      a child's result stops the loop unless it is [nil], or [SkipDir]
      coming from a directory (or from a failed lstat). *)
Fixpoint visit (p : path) (t : node) (s : S) {struct t} : S * wret :=
  match t with
  | NBroken _ => fn s p None (Some (ErrLstat p))
  | NFile _ _ => fn s p (Some t) None
  | NDir _ _ None => fn s p (Some t) (Some (ErrReadDir p))
  | NDir _ _ (Some ks) =>
      let '(s1, r1) := fn s p (Some t) None in
      match r1 with
      | WNil =>
          (fix loop (l : list node) (s : S) : S * wret :=
             match l with
             | [] => (s, WNil)
             | k :: l' =>
                 let '(s', r) := visit (p ++ [Name k]) k s in
                 match r with
                 | WNil => loop l' s'
                 | WSkipDir =>
                     match k with
                     | NFile _ _ => (s', r)
                     | _ => loop l' s'
                     end
                 | WErr _ => (s', r)
                 end
             end) ks s1
      | _ => (s1, r1)
      end
  end.

(** [filepath.Walk(root, fn)]: [root] is the path as given (the callback
    sees it, and children's paths are joined onto it), [t] the entry
    [os.Lstat(root)] returns; a top-level [SkipDir] becomes [nil]. *)
Definition Walk (root : path) (t : node) (s : S) : S * option ioerr :=
  let '(s', r) := visit root t s in
  match r with
  | WErr e => (s', Some e)
  | _ => (s', None)
  end.

End Walk.
End Walk.

(* ------------------------------------------------------------------ *)
(** ** calculateDirSize and findNodeModules *)

Module Find.
Import FS Walk.

(** The callback of [calculateDirSize]: errors abort the walk; every
    non-directory adds [info.Size()] to the [int64] accumulator. *)
Definition size_fn (size : Z) (_ : path) (info : option node)
    (err : option ioerr) : Z * wret :=
  match err with
  | Some e => (size, WErr e)
  | None =>
      match info with
      | Some t => if IsDir t then (size, WNil) else (wrap64 (size + Size t), WNil)
      | None => (size, WNil)
      end
  end.

(** [calculateDirSize(path)]: [t] is the entry [path] resolves to (the tree
    does not change between the discovery walk and the sizing). *)
Definition calculateDirSize (p : path) (t : node) : Z * option ioerr :=
  let '(size, r) := visit size_fn p t 0 in
  match r with
  | WErr e => (size, Some e)
  | _ => (size, None)
  end.

(** [Directory{path, size}]. *)
Record Directory : Type := MkDirectory { dpath : path; dsize : Z }.

Definition target : string := "node_modules".

(** The callback of [findNodeModules]: errors are skipped; a directory named
    [node_modules] spawns a sizing goroutine for its path (recorded here, in
    spawn order) and is not descended into. *)
Definition find_fn (spawned : list (path * node)) (p : path)
    (info : option node) (err : option ioerr) : list (path * node) * wret :=
  match err with
  | Some _ => (spawned, WNil)
  | None =>
      match info with
      | Some t =>
          if (IsDir t && String.eqb (Name t) target)%bool
          then (spawned ++ [(p, t)], WSkipDir)
          else (spawned, WNil)
      | None => (spawned, WNil)
      end
  end.

(** The body of one sizing goroutine: the entry it appends, if any. *)
Definition goroutine (job : path * node) : option Directory :=
  let '(p, t) := job in
  let '(size, err) := calculateDirSize p t in
  match err with
  | None => Some (MkDirectory p size)
  | Some _ => None
  end.

Fixpoint appended (jobs : list (path * node)) : list Directory :=
  match jobs with
  | [] => []
  | j :: js =>
      match goroutine j with
      | Some d => d :: appended js
      | None => appended js
      end
  end.

(** [findNodeModules(root)] returns [(nodeModules, err)] after [wg.Wait()]:
    [err] is the walk's result, and [nodeModules] holds the entries appended
    under the mutex by the goroutines in whatever order they finish, i.e.
    any permutation of the successful goroutines' entries. *)
Definition findNodeModules (root : path) (t : node) (res : list Directory)
    (err : option ioerr) : Prop :=
  let '(jobs, e) := Walk find_fn root t [] in
  err = e /\ Permutation res (appended jobs).

End Find.

(* ------------------------------------------------------------------ *)
(** ** Structural notions over trees (used to state the claims) *)

Module Tree.
Import FS Walk Find.

(** The points where a traversal of [t] (at path [p]) fails, in pre-order. *)
Fixpoint failures (p : path) (t : node) : list ioerr :=
  match t with
  | NFile _ _ => []
  | NDir _ _ None => [ErrReadDir p]
  | NDir _ _ (Some ks) => flat_map (fun k => failures (p ++ [Name k]) k) ks
  | NBroken _ => [ErrLstat p]
  end.

(** Sum of the size attributes of the non-directory entries. *)
Fixpoint file_total (t : node) : Z :=
  match t with
  | NFile _ s => s
  | NDir _ _ (Some ks) => fold_right Z.add 0 (map file_total ks)
  | _ => 0
  end.

Definition is_target (n : string) : bool := String.eqb n target.





(** The [node_modules] directories not inside another one, with their paths,
    in pre-order.  An unreadable directory contributes nothing. *)
Fixpoint top_matches (p : path) (t : node) : list (path * node) :=
  match t with
  | NDir n _ (Some ks) =>
      if is_target n then [(p, t)]
      else flat_map (fun k => top_matches (p ++ [Name k]) k) ks
  | _ => []
  end.

(** What the discovery callback returns for the root of [t]. *)
Definition find_ret (t : node) : wret :=
  match t with
  | NDir n _ (Some _) => if is_target n then WSkipDir else WNil
  | _ => WNil
  end.

(** The root itself cannot be walked: [Lstat] or the listing fails. *)
Definition unwalkable (t : node) : bool :=
  match t with
  | NBroken _ | NDir _ _ None => true
  | _ => false
  end.

End Tree.

(* ------------------------------------------------------------------ *)
(** ** formatSize *)

Module Format.

Definition unit : Z := 1024.

(** Go's [%d] of an [int64]: decimal digits, with a leading [-] for
    negative values (20 digits cover every [int64]). *)
Definition digit_char (d : Z) : ascii := ascii_of_nat (48 + Z.to_nat d).

Fixpoint digits_aux (fuel : nat) (n : Z) (acc : string) : string :=
  match fuel with
  | O => acc
  | S f =>
      let acc' := String (digit_char (n mod 10)) acc in
      if n <? 10 then acc' else digits_aux f (n / 10) acc'
  end.

Definition itoa (z : Z) : string :=
  if z <? 0 then String "-"%char (digits_aux 20 (- z) EmptyString)
  else digits_aux 20 z EmptyString.

(** [for n := bytes / unit; n >= unit; n /= unit { div *= unit; exp++ }],
    returning [(div, exp)].  For an [int64] input [n < 2^53], so the loop
    runs at most five times and the fuel is never exhausted. *)
Fixpoint size_loop (fuel : nat) (n div : Z) (exp : nat) : Z * nat :=
  match fuel with
  | O => (div, exp)
  | S f =>
      if unit <=? n then size_loop f (Z.quot n unit) (wrap64 (div * unit)) (S exp)
      else (div, exp)
  end.

(** Rounding of [a / b] (for [b > 0]) to the nearest integer, ties to even. *)
Definition round_half_even (a b : Z) : Z :=
  let q := a / b in
  let r := a mod b in
  if b <? 2 * r then q + 1
  else if 2 * r <? b then q
  else if Z.even q then q else q + 1.

(** [float64(z)] for [z >= 0]: rounding to 53 significant bits, ties to
    even; the value is kept as the integer it denotes. *)
Definition float64_of_int64 (z : Z) : Z :=
  let e := Z.log2 z - 52 in
  if e <=? 0 then z else round_half_even z (2 ^ e) * 2 ^ e.

(** [fmt.Sprintf("%.1f", x / y)] for floats [x], [y] with [y] a power of two,
    so that the quotient is exact: strconv prints the exact decimal value of
    the quotient rounded to one fractional digit, ties to even. *)
Definition fmt_1f (x y : Z) : string :=
  let q := round_half_even (10 * x) y in
  (itoa (q / 10) ++ "." ++ String (digit_char (q mod 10)) EmptyString)%string.

(** [formatSize(bytes)]; [None] is the run-time panic of an out-of-range
    index into ["KMGTPE"]. *)
Definition formatSize (bytes : Z) : option string :=
  if bytes <? unit then Some (itoa bytes ++ " B")%string
  else
    let '(div, exp) := size_loop 64 (Z.quot bytes unit) unit 0 in
    match String.get exp "KMGTPE"%string with
    | Some c =>
        Some (fmt_1f (float64_of_int64 bytes) (float64_of_int64 div)
              ++ " " ++ String c "B")%string
    | None => None
    end.

(** Reading a rendered size back: the unit tier is 0 for ["B"], and
    1 + the position of the letter in ["KMGTPE"] for ["KB"] ... ["EB"]. *)
Fixpoint index_of (c : ascii) (l : list ascii) : option nat :=
  match l with
  | [] => None
  | x :: l' =>
      if Ascii.eqb c x then Some O
      else match index_of c l' with Some i => Some (S i) | None => None end
  end.

Definition unit_tier (s : string) : nat :=
  match rev (list_ascii_of_string s) with
  | _ :: c :: _ =>
      match index_of c (list_ascii_of_string "KMGTPE"%string) with
      | Some i => S i
      | None => O
      end
  | _ => O
  end.

(** Decimal digits, to state what a rendering looks like. *)
Definition is_digit (c : ascii) : bool :=
  (Nat.leb 48 (nat_of_ascii c) && Nat.leb (nat_of_ascii c) 57)%bool.

Definition all_digits (s : string) : bool :=
  forallb is_digit (list_ascii_of_string s).

End Format.

(* ------------------------------------------------------------------ *)
(** ** The deletion stage of main *)

Module Delete.
Import FS Find.

(** The [*PathError] returned by [os.RemoveAll]. *)
Inductive rmerr : Type :=
| PathError (op : string) (p : string) (err : string).

Definition rm_Error (e : rmerr) : string :=
  match e with PathError op p err => (op ++ " " ++ p ++ ": " ++ err)%string end.

(** The error built by [fmt.Errorf] with a [%w] verb: its message and the
    error it wraps (what [errors.Unwrap] returns). *)
Inductive wrapError : Type :=
| WrapError (msg : string) (err : rmerr).

Definition show_path (p : path) : string := String.concat "/"%string p.

(** Output lines of a deletion run. *)
Inductive line : Type :=
| LDeleted (d : Directory)     (* Deleted [path] (size) in duration *)
| LError (e : wrapError)       (* ERROR: failed to delete path: err *)
| LCompleted.                  (* Operation completed! *)

(** [deleteDirectory(dir)] with the outcome [o] of [os.RemoveAll(dir.path)],
    and the line the goroutine prints. *)
Definition deleteDirectory (dir : Directory) (o : option rmerr)
    : option wrapError :=
  match o with
  | None => None
  | Some err =>
      Some (WrapError ("failed to delete " ++ show_path (dpath dir) ++ ": "
                       ++ rm_Error err)%string err)
  end.

Definition line_of (dir : Directory) (o : option rmerr) : line :=
  match deleteDirectory dir o with
  | None => LDeleted dir
  | Some e => LError e
  end.

Definition maxConcurrent : nat := 3.

(** Where each deletion goroutine is: not yet started by main's loop,
    blocked on [semaphore <- struct{}{}], inside [deleteDirectory] holding
    a permit, returned from it, after the deferred release, after the
    deferred [deleteWg.Done()]. *)
Inductive gphase : Type :=
| GNew | GWaiting | GRemoving | GRemoved | GReleased | GDone.

(** [sel]: [dirs[idx]] for each selected index; [pc]: how many goroutines
    main's loop has started; [wg]: the WaitGroup counter; [sem]:
    [len(semaphore)]; [attempts]: the [RemoveAll] calls made and their
    outcomes (goroutine number, result); [finished]: [deleteWg.Wait()] has
    returned and the completion line is printed. *)
Record dstate : Type := DState {
  sel : list Directory;
  ph : list gphase;
  pc : nat;
  wg : nat;
  sem : nat;
  out : list line;
  attempts : list (nat * option rmerr);
  finished : bool
}.

Fixpoint upd {A : Type} (l : list A) (i : nat) (x : A) : list A :=
  match l, i with
  | [], _ => []
  | _ :: l', O => x :: l'
  | y :: l', S i' => y :: upd l' i' x
  end.

(** One step of one goroutine, or of main.  [StepRemove] makes the
    [RemoveAll] call and prints its line together; in Go another goroutine
    may run between the two, so the order of the printed lines need not be
    the order of the removals, and only which lines are printed is read
    off this relation, not their order. *)
Inductive step : dstate -> dstate -> Prop :=
| StepSpawn : forall sl ps k w n o a f,
    nth_error ps k = Some GNew ->
    step (DState sl ps k w n o a f)
         (DState sl (upd ps k GWaiting) (S k) (S w) n o a f)
| StepAcquire : forall sl ps k w n o a f i,
    nth_error ps i = Some GWaiting ->
    (n < maxConcurrent)%nat ->
    step (DState sl ps k w n o a f)
         (DState sl (upd ps i GRemoving) k w (S n) o a f)
| StepRemove : forall sl ps k w n o a f i d r,
    nth_error ps i = Some GRemoving ->
    nth_error sl i = Some d ->
    step (DState sl ps k w n o a f)
         (DState sl (upd ps i GRemoved) k w n (o ++ [line_of d r])
                 (a ++ [(i, r)]) f)
| StepRelease : forall sl ps k w n o a f i,
    nth_error ps i = Some GRemoved ->
    step (DState sl ps k w (S n) o a f)
         (DState sl (upd ps i GReleased) k w n o a f)
| StepDone : forall sl ps k w n o a f i,
    nth_error ps i = Some GReleased ->
    step (DState sl ps k (S w) n o a f)
         (DState sl (upd ps i GDone) k w n o a f)
| StepWait : forall sl ps n o a,
    step (DState sl ps (List.length ps) 0 n o a false)
         (DState sl ps (List.length ps) 0 n (o ++ [LCompleted]) a true).

Definition init (sl : list Directory) : dstate :=
  DState sl (repeat GNew (List.length sl)) 0 0 0 [] [] false.

Inductive reachable (sl : list Directory) : dstate -> Prop :=
| ReachInit : reachable sl (init sl)
| ReachStep : forall s s', reachable sl s -> step s s' -> reachable sl s'.

(** Goroutines holding a permit. *)
Definition holds (g : gphase) : bool :=
  match g with GRemoving | GRemoved => true | _ => false end.

Definition in_removal (g : gphase) : bool :=
  match g with GRemoving => true | _ => false end.

Definition sumf {A : Type} (h : A -> nat) (l : list A) : nat :=
  fold_right (fun x n => (h x + n)%nat) O l.

Definition count {A : Type} (f : A -> bool) (l : list A) : nat :=
  sumf (fun x => if f x then 1%nat else O) l.

Definition is_ph (p g : gphase) : bool :=
  match p, g with
  | GNew, GNew | GWaiting, GWaiting | GRemoving, GRemoving
  | GRemoved, GRemoved | GReleased, GReleased | GDone, GDone => true
  | _, _ => false
  end.

(** Goroutines counted by the WaitGroup. *)
Definition active (g : gphase) : bool :=
  match g with GWaiting | GRemoving | GRemoved | GReleased => true | _ => false end.

(** Goroutines whose [RemoveAll] has been called. *)
Definition attempted (g : gphase) : bool :=
  match g with GRemoved | GReleased | GDone => true | _ => false end.

(** Steps left to each goroutine, and to main. *)
Definition rank (g : gphase) : nat :=
  match g with
  | GNew => 5 | GWaiting => 4 | GRemoving => 3
  | GRemoved => 2 | GReleased => 1 | GDone => 0
  end.

Definition measure (s : dstate) : nat :=
  (sumf rank (ph s) + (if finished s then 0 else 1))%nat.

(** The invariant of the deletion stage. *)
Definition Inv (sl : list Directory) (s : dstate) : Prop :=
  sel s = sl /\
  List.length (ph s) = List.length sl /\
  (pc s <= List.length sl)%nat /\
  (forall i, nth_error (ph s) i = Some GNew <-> (pc s <= i < List.length sl)%nat) /\
  sem s = count holds (ph s) /\
  (sem s <= maxConcurrent)%nat /\
  wg s = count active (ph s) /\
  NoDup (map fst (attempts s)) /\
  (forall i, In i (map fst (attempts s)) <->
             exists g, nth_error (ph s) i = Some g /\ attempted g = true) /\
  (forall i r, In (i, r) (attempts s) ->
               exists d, nth_error sl i = Some d /\ In (line_of d r) (out s)) /\
  (finished s = true ->
     count active (ph s) = O /\ pc s = List.length sl /\
     exists pre, out s = pre ++ [LCompleted]).

End Delete.

(* ------------------------------------------------------------------ *)
(** ** Sample trees *)

Module Samples.
Import FS.

(** A match containing an unreadable directory, for C1. *)
Definition unreadable_inside : node :=
  NDir "node_modules" 4096 (Some [NDir "cache" 4096 None]).

(** A root that does not exist, for C2. *)
Definition missing_root : node := NBroken "missing".

(** Two files whose sizes add up past [2^63 - 1], for C3. *)
Definition two_big_files : node :=
  NDir "d" 4096 (Some [NFile "a" (2 ^ 62); NFile "b" (2 ^ 62)]).

(** A project with two [node_modules] directories, neither inside the
    other, and what the walk reports for it. *)
Definition small_project : node :=
  NDir "proj" 4096 (Some [
    NDir "app" 4096 (Some [NFile "index.js" 300;
                           NDir "node_modules" 4096 (Some [NFile "lib.js" 1200])]);
    NDir "node_modules" 4096
      (Some [NFile "a.js" 2000; NDir "pkg" 4096 (Some [NFile "b.js" 48])])])%string.

Definition small_project_found : list Find.Directory :=
  [ Find.MkDirectory ["proj"; "app"; "node_modules"] 1200;
    Find.MkDirectory ["proj"; "node_modules"] 2048 ]%string.

(** A project where one match can be sized and the other cannot. *)
Definition mixed_project : node :=
  NDir "proj" 4096 (Some [NDir "a" 4096 (Some [unreadable_inside]);
                          NDir "node_modules" 4096 (Some [NFile "x.js" 100])])%string.

Definition mixed_project_found : list Find.Directory :=
  [ Find.MkDirectory ["proj"; "node_modules"] 100 ]%string.

(** Four selected entries, one more than the pool limit, for C8 and C9. *)
Definition four_selected : list Find.Directory :=
  [ Find.MkDirectory ["proj"; "a"; "node_modules"] 1024;
    Find.MkDirectory ["proj"; "b"; "node_modules"] 2048;
    Find.MkDirectory ["proj"; "c"; "node_modules"] 4096;
    Find.MkDirectory ["proj"; "d"; "node_modules"] 8192 ]%string.

(** A [node_modules] root with another [node_modules] directory inside
    it, and what the walk reports for it. *)
Definition nested_modules : node :=
  NDir "node_modules" 4096 (Some [
    NFile "x.js" 10;
    NDir "dep" 4096 (Some [NDir "node_modules" 4096 (Some [NFile "y.js" 5])])])%string.

Definition nested_modules_found : list Find.Directory :=
  [ Find.MkDirectory ["node_modules"] 15 ]%string.

End Samples.

(* ------------------------------------------------------------------ *)
(** ** Well-formed trees *)

Module TreeWf.
Import FS.

Fixpoint nodup_str (l : list string) : bool :=
  match l with
  | [] => true
  | x :: l' => (negb (existsb (String.eqb x) l') && nodup_str l')%bool
  end.

(** The entries of every listed directory have distinct names, as in a
    real file system. *)
Fixpoint distinct_names (t : node) : bool :=
  match t with
  | NDir _ _ (Some ks) => (nodup_str (map Name ks) && forallb distinct_names ks)%bool
  | _ => true
  end.

End TreeWf.

(* ------------------------------------------------------------------ *)
(** ** [main] up to the deletion stage *)

Module Main.
Import FS Find Format Delete.

(** What [main] prints or shows, in order. *)
Inductive msg : Type :=
| MGetwdError (e : string)       (* Error getting current directory: %v *)
| MScanning (root : string)      (* Scanning for node_modules in %s ... *)
| MWalkError (e : ioerr)         (* Error walking directory: %v *)
| MNoneFound (root : string)     (* No node_modules directories found in %s *)
| MSelectPrompt (n : nat) (options : list string)
                                 (* Found %d node_modules directories. ... *)
| MSelectError (e : string)      (* Error during selection: %v *)
| MNoneSelected                  (* No directories selected for deletion. *)
| MConfirmPrompt (k : nat) (total : string)
                                 (* Are you sure you want to DELETE %d ... %s *)
| MConfirmError (e : string)     (* Error during confirmation: %v *)
| MCancelled                     (* Operation cancelled. *)
| MDeleting (k : nat) (total : string).
                                 (* Deleting %d directories (total size: %s) *)

(** How [main] ends before the deletion stage: it returns, it panics, or it
    starts the deletion goroutines on the given entries. *)
Inductive outcome : Type :=
| Return
| Panic
| StartDelete (sel : list Directory).

(** [if len(os.Args) > 1 { root = os.Args[1] } else { root, err = os.Getwd() }];
    [getwd] is [inl] of the working directory or [inr] of the error. *)
Definition root_of (args : list string) (getwd : string + string) : string + string :=
  match args with
  | _ :: r :: _ => inl r
  | _ => getwd
  end.

(** [fmt.Sprintf("%s (%s)", dir.path, formatSize(dir.size))]. *)
Definition option_label (d : Directory) : option string :=
  match formatSize (dsize d) with
  | Some s => Some (show_path (dpath d) ++ " (" ++ s ++ ")")%string
  | None => None
  end.

Fixpoint options (dirs : list Directory) : option (list string) :=
  match dirs with
  | [] => Some []
  | d :: ds =>
      match option_label d with
      | Some o => match options ds with Some os => Some (o :: os) | None => None end
      | None => None
      end
  end.

(** [for _, idx := range selectedIndices { totalSize += dirs[idx].size }]:
    [None] is the panic of an index out of range. *)
Fixpoint total_size (dirs : list Directory) (idxs : list nat) (acc : Z) : option Z :=
  match idxs with
  | [] => Some acc
  | i :: is =>
      match nth_error dirs i with
      | Some d => total_size dirs is (wrap64 (acc + dsize d))
      | None => None
      end
  end.

(** [dirs[idx]] for each selected index, as passed to the goroutines. *)
Fixpoint pick (dirs : list Directory) (idxs : list nat) : option (list Directory) :=
  match idxs with
  | [] => Some []
  | i :: is =>
      match nth_error dirs i with
      | Some d => match pick dirs is with Some ds => Some (d :: ds) | None => None end
      | None => None
      end
  end.

(** [main()] up to the start of the deletion stage.  [find] is what
    [findNodeModules] returns for a root; [select] is what the
    multi-select prompt stores in [selectedIndices] ([inr] is its error);
    [confirm] is the answer to the confirmation prompt. *)
Definition main (args : list string) (getwd : string + string)
    (find : string -> list Directory * option ioerr)
    (select : list nat + string) (confirm : bool + string) : list msg * outcome :=
  match root_of args getwd with
  | inr e => ([MGetwdError e], Return)
  | inl root =>
      let '(dirs, err) := find root in
      match err with
      | Some e => ([MScanning root; MWalkError e], Return)
      | None =>
          match dirs with
          | [] => ([MScanning root; MNoneFound root], Return)
          | _ :: _ =>
              match options dirs with
              | None => ([MScanning root], Panic)
              | Some opts =>
                  let shown := [MScanning root; MSelectPrompt (List.length dirs) opts] in
                  match select with
                  | inr e => (shown ++ [MSelectError e], Return)
                  | inl [] => (shown ++ [MNoneSelected], Return)
                  | inl idxs =>
                      match total_size dirs idxs 0 with
                      | None => (shown, Panic)
                      | Some total =>
                          match formatSize total with
                          | None => (shown, Panic)
                          | Some ts =>
                              let asked := shown ++ [MConfirmPrompt (List.length idxs) ts] in
                              match confirm with
                              | inr e => (asked ++ [MConfirmError e], Return)
                              | inl false => (asked ++ [MCancelled], Return)
                              | inl true =>
                                  let done := asked ++ [MDeleting (List.length idxs) ts] in
                                  match pick dirs idxs with
                                  | Some sel => (done, StartDelete sel)
                                  | None => (done, Panic)
                                  end
                              end
                          end
                      end
                  end
              end
          end
      end
  end.

End Main.

Module MainSamples.
Import FS Find Main Samples.

Definition sample_args : list string := ["clean-modules"; "proj"]%string.

(** A discovery that returns the entries of [small_project]. *)
Definition sample_find (_ : string) : list Directory * option ioerr :=
  (small_project_found, None).

(** A discovery on a root that does not exist. *)
Definition missing_find (_ : string) : list Directory * option ioerr := ([], None).

End MainSamples.

(* ================================================================== *)
(** * Proofs *)

(* ------------------------------------------------------------------ *)
(** ** int64 wrap-around *)

Lemma wrap64_range : forall z, in_int64 (wrap64 z).
Proof.
  intro z; unfold in_int64, wrap64.
  pose proof (Z.mod_pos_bound (z + 2 ^ 63) (2 ^ 64) ltac:(lia)); lia.
Qed.

Lemma wrap64_id : forall z, in_int64 z -> wrap64 z = z.
Proof.
  intros z Hz; unfold in_int64, wrap64 in *.
  rewrite Z.mod_small; lia.
Qed.

Lemma wrap64_add_l : forall a b, wrap64 (wrap64 a + b) = wrap64 (a + b).
Proof.
  intros a b; unfold wrap64.
  replace ((a + 2 ^ 63) mod 2 ^ 64 - 2 ^ 63 + b + 2 ^ 63)
    with ((a + 2 ^ 63) mod 2 ^ 64 + b) by lia.
  rewrite Z.add_mod_idemp_l by lia.
  f_equal; f_equal; lia.
Qed.

(* ------------------------------------------------------------------ *)
(** ** The two walks *)

Module WalkFacts.
Import FS Walk Find Tree.



(** A traversal of [calculateDirSize] that meets no error ends in [nil]. *)
Lemma visit_size_nil : forall t p acc,
  failures p t = [] -> snd (visit size_fn p t acc) = WNil.
Proof.
  induction t as [n s|n s|n s ks IH|n] using node_ind'; simpl;
    intros p acc Hf; try discriminate; auto.
  revert acc Hf.
  induction IH as [|k ks Hk Hks IHks]; simpl; intros acc Hf; auto.
  apply app_eq_nil in Hf as [Hf1 Hf2].
  specialize (Hk (p ++ [Name k]) acc Hf1).
  destruct (visit size_fn (p ++ [Name k]) k acc) as [a1 r1]; simpl in Hk; subst.
  auto.
Qed.

(** ... and with the wrapped sum of the file sizes added to the
    accumulator. *)
Lemma visit_size_ok : forall t p acc,
  failures p t = [] -> in_int64 acc ->
  visit size_fn p t acc = (wrap64 (acc + file_total t), WNil).
Proof.
  induction t as [n s|n s|n s ks IH|n] using node_ind'; simpl;
    intros p acc Hf Hacc; try discriminate; auto.
  revert acc Hacc Hf.
  induction IH as [|k ks Hk Hks IHks]; simpl; intros acc Hacc Hf.
  - rewrite Z.add_0_r, wrap64_id; auto.
  - apply app_eq_nil in Hf as [Hf1 Hf2].
    rewrite Hk by auto.
    rewrite IHks by (auto using wrap64_range).
    rewrite wrap64_add_l; f_equal; f_equal; lia.
Qed.

(** A traversal of [calculateDirSize] that meets an error stops with the
    first one in pre-order. *)
Lemma visit_size_fail : forall t p acc e es,
  failures p t = e :: es ->
  exists s, visit size_fn p t acc = (s, WErr e).
Proof.
  induction t as [n s|n s|n s ks IH|n] using node_ind'; simpl;
    intros p acc e es Hf; try discriminate.
  - inversion Hf; subst; eauto.
  - revert acc es Hf.
    induction IH as [|k ks Hk Hks IHks]; simpl; intros acc es Hf;
      [discriminate|].
    destruct (failures (p ++ [Name k]) k) as [|e' es'] eqn:Ek; simpl in Hf.
    + pose proof (visit_size_nil k (p ++ [Name k]) acc Ek) as Hn.
      destruct (visit size_fn (p ++ [Name k]) k acc) as [acc' r];
        simpl in Hn; subst.
      eapply IHks; eauto.
    + inversion Hf; subst.
      destruct (Hk (p ++ [Name k]) acc e es' Ek) as [s' Hs'].
      rewrite Hs'; eauto.
  - inversion Hf; subst; eauto.
Qed.

End WalkFacts.

Module FindFacts.
Import FS Walk Find Tree WalkFacts.

(** The discovery walk spawns one goroutine per [node_modules] directory
    that is not inside another, in pre-order, and never fails. *)
Lemma visit_find : forall t p js,
  visit find_fn p t js = (js ++ top_matches p t, find_ret t).
Proof.
  induction t as [n s|n s|n s ks IH|n] using node_ind'; simpl; intros p js;
    try (rewrite app_nil_r; reflexivity).
  unfold find_ret, is_target.
  destruct (String.eqb n target); simpl; [reflexivity|].
  revert js.
  induction IH as [|k ks Hk Hks IHks]; simpl; intros js.
  - rewrite app_nil_r; reflexivity.
  - rewrite Hk.
    destruct k as [n' s'|n' s' [ks'|]|n']; simpl; rewrite ?app_nil_r;
      try destruct (is_target n'); simpl;
      rewrite IHks, <- ?app_assoc; reflexivity.
Qed.

Lemma Walk_find : forall rp root,
  Walk find_fn rp root [] = (top_matches rp root, None).
Proof.
  intros rp root; unfold Walk; rewrite visit_find; simpl; unfold find_ret.
  destruct root as [n s|n s [ks|]|n]; try destruct (is_target n); reflexivity.
Qed.

Lemma findNodeModules_iff : forall rp root res err,
  findNodeModules rp root res err <->
  err = None /\ Permutation res (appended (top_matches rp root)).
Proof.
  intros; unfold findNodeModules; rewrite Walk_find; tauto.
Qed.

Lemma calculateDirSize_ok : forall p t,
  failures p t = [] -> calculateDirSize p t = (wrap64 (file_total t), None).
Proof.
  intros p t Hf; unfold calculateDirSize.
  rewrite visit_size_ok by (auto; unfold in_int64; lia); reflexivity.
Qed.

Lemma calculateDirSize_fail : forall p t e es,
  failures p t = e :: es -> snd (calculateDirSize p t) = Some e.
Proof.
  intros p t e es Hf; unfold calculateDirSize.
  destruct (visit_size_fail t p 0 e es Hf) as [s ->]; reflexivity.
Qed.

Lemma goroutine_some : forall p t,
  failures p t = [] -> goroutine (p, t) = Some (MkDirectory p (wrap64 (file_total t))).
Proof.
  intros p t Hf; unfold goroutine; rewrite calculateDirSize_ok; auto.
Qed.

Lemma goroutine_none : forall p t,
  failures p t <> [] -> goroutine (p, t) = None.
Proof.
  intros p t Hf; unfold goroutine.
  destruct (failures p t) as [|e es] eqn:E; [congruence|].
  pose proof (calculateDirSize_fail p t e es E) as H.
  destruct (calculateDirSize p t) as [s r]; simpl in H; subst; reflexivity.
Qed.

Lemma goroutine_path : forall j d, goroutine j = Some d -> dpath d = fst j.
Proof.
  intros [p t] d; unfold goroutine.
  destruct (calculateDirSize p t) as [s [e|]]; intro H; inversion H; auto.
Qed.

Lemma In_appended : forall jobs d,
  In d (appended jobs) <-> exists j, In j jobs /\ goroutine j = Some d.
Proof.
  induction jobs as [|j js IH]; simpl; intros d.
  - split; [intros []|intros [j [[] _]]].
  - destruct (goroutine j) as [d'|] eqn:Ej; simpl; rewrite IH; split.
    + intros [<-|[j' [H1 H2]]]; [exists j; auto|exists j'; auto].
    + intros [j' [[<-|H1] H2]]; [left; rewrite Ej in H2; injection H2; auto|].
      right; exists j'; auto.
    + intros [j' [H1 H2]]; exists j'; auto.
    + intros [j' [[<-|H1] H2]]; [rewrite Ej in H2; discriminate|].
      exists j'; auto.
Qed.


End FindFacts.

Module TreeFacts.
Import FS Walk Find Tree WalkFacts FindFacts.

Lemma In_flat_map_top : forall p ks q u,
  In (q, u) (flat_map (fun k => top_matches (p ++ [Name k]) k) ks) ->
  exists k, In k ks /\ In (q, u) (top_matches (p ++ [Name k]) k).
Proof.
  intros p ks q u H; apply in_flat_map in H; exact H.
Qed.





Lemma NoDup_fst_inj {A B : Type} : forall (l : list (A * B)) a b b',
  NoDup (map fst l) -> In (a, b) l -> In (a, b') l -> b = b'.
Proof.
  induction l as [|[x y] l IH]; simpl; intros a b b' Hnd H1 H2; [contradiction|].
  inversion Hnd as [|? ? Hx Hnd']; subst.
  destruct H1 as [E1|H1], H2 as [E2|H2].
  - inversion E1; inversion E2; subst; auto.
  - inversion E1; subst; exfalso; apply Hx.
    change a with (fst (a, b')); apply in_map; auto.
  - inversion E2; subst; exfalso; apply Hx.
    change a with (fst (a, b)); apply in_map; auto.
  - eauto.
Qed.

End TreeFacts.

(* ------------------------------------------------------------------ *)
(** ** Claims on discovery and sizing *)

Module FindClaims.
Import FS Walk Find Tree WalkFacts FindFacts TreeFacts Samples.



(** C2 (counterexample): for a nonexistent root, [findNodeModules] returns a
    nil error. *)
Lemma C2_missing_root_nil_error :
  ~ (forall res err, findNodeModules ["missing"%string] missing_root res err ->
                     err <> None).
Proof.
  intro H; apply (H [] None); [|reflexivity].
  apply findNodeModules_iff; split; [reflexivity|].
  vm_compute; apply perm_nil.
Qed.

(** C2 (amended): [findNodeModules] never returns a non-nil error; when the
    root cannot be walked (it does not exist, or cannot be listed) it
    returns no entries and a nil error. *)
Theorem C2_find_never_errors : forall rp root res err,
  findNodeModules rp root res err ->
  err = None /\ (unwalkable root = true -> res = []).
Proof.
  intros rp root res err H.
  apply findNodeModules_iff in H as [He Hp]; split; auto.
  intros Hu.
  destruct root as [n s|n s [ks|]|n]; try discriminate;
    simpl in Hp; apply Permutation_nil, Permutation_sym; auto.
Qed.

(** C3 (counterexample): the sum of the file sizes of [two_big_files] is
    [2^63], but [calculateDirSize] returns [-2^63] (the [int64] sum wraps). *)
Lemma C3_int64_sum_wraps :
  fst (calculateDirSize ["d"%string] two_big_files) = - 2 ^ 63 /\
  fst (calculateDirSize ["d"%string] two_big_files) <> file_total two_big_files.
Proof. vm_compute; split; [reflexivity|discriminate]. Qed.

(** C3 (amended): when the traversal meets no error, [calculateDirSize]
    returns a nil error and the sum of the sizes of the non-directory
    entries, taken modulo [2^64] into the [int64] range; it is the sum
    itself whenever the sum is below [2^63]; an empty directory gives 0. *)
Theorem C3_size_is_file_sum : forall p t,
  failures p t = [] ->
  calculateDirSize p t = (wrap64 (file_total t), None) /\
  (in_int64 (file_total t) -> calculateDirSize p t = (file_total t, None)) /\
  (forall n s, calculateDirSize p (NDir n s (Some [])) = (0, None)).
Proof.
  intros p t Hf; rewrite calculateDirSize_ok by exact Hf.
  split; [reflexivity|split].
  - intros Hr; rewrite wrap64_id; auto.
  - intros n s; reflexivity.
Qed.

(** C4: [calculateDirSize] is all-or-nothing: if the traversal meets an
    error anywhere, it returns the first one met (in walk order); it returns
    a nil error only when the traversal meets none. *)
Theorem C4_size_error_propagates : forall p t,
  match failures p t with
  | [] => snd (calculateDirSize p t) = None
  | e :: _ => snd (calculateDirSize p t) = Some e
  end.
Proof.
  intros p t; destruct (failures p t) as [|e es] eqn:Ef.
  - rewrite calculateDirSize_ok; auto.
  - eapply calculateDirSize_fail; eauto.
Qed.

(** C5: the entries of [findNodeModules] are those of the spawned matches
    whose sizing succeeds; each successfully sized match is returned with
    its size whatever happens to the others, and (paths being distinct) a
    match whose sizing fails is absent; the walk still spawns every
    match and returns a nil error. *)
Theorem C5_size_failure_dropped : forall rp root res err,
  findNodeModules rp root res err ->
  let jobs := top_matches rp root in
  err = None /\
  Permutation res (appended jobs) /\
  (forall p t s, In (p, t) jobs -> calculateDirSize p t = (s, None) ->
     In (MkDirectory p s) res) /\
  (forall p t, In (p, t) jobs -> snd (calculateDirSize p t) <> None ->
     NoDup (map fst jobs) -> forall d, In d res -> dpath d <> p).
Proof.
  intros rp root res err H jobs.
  apply findNodeModules_iff in H as [He Hp].
  split; [exact He|split; [exact Hp|split]].
  - intros p t s Hj Hc.
    apply (Permutation_in _ (Permutation_sym Hp)), In_appended.
    exists (p, t); split; auto.
    unfold goroutine; rewrite Hc; reflexivity.
  - intros p t Hj Hc Hnd d Hd Hdp.
    apply (Permutation_in _ Hp), In_appended in Hd as [[q u] [Hj' Hg]].
    pose proof (goroutine_path _ _ Hg) as Hq; simpl in Hq; subst q.
    rewrite Hdp in Hj'.
    pose proof (NoDup_fst_inj jobs p t u Hnd Hj Hj') as <-.
    unfold goroutine in Hg.
    destruct (calculateDirSize (dpath d) t) as [s [e|]] eqn:Ec;
      rewrite Hdp in Ec; rewrite Ec in Hc; simpl in Hc; [discriminate|].
    congruence.
Qed.


(** Witness for C2: the walk of a nonexistent root. *)
Lemma C2_find_never_errors_witness :
  findNodeModules ["missing"%string] missing_root [] None /\ unwalkable missing_root = true.
Proof.
  assert (Hf : findNodeModules ["missing"%string] missing_root [] None).
  { apply findNodeModules_iff; split; [reflexivity|].
    vm_compute; apply perm_nil. }
  split; [exact Hf|].
  destruct (C2_find_never_errors _ _ _ _ Hf) as [_ _]; reflexivity.
Defined.

(** Witness for C3: sizing [small_project]. *)
Lemma C3_size_is_file_sum_witness :
  failures ["proj"%string] small_project = [] /\
  calculateDirSize ["proj"%string] small_project = (3548, None).
Proof.
  split; [reflexivity|].
  destruct (C3_size_is_file_sum ["proj"%string] small_project eq_refl)
    as (_ & H & _).
  rewrite H; [reflexivity|].
  unfold in_int64; vm_compute; split; [intro Hc; discriminate Hc|reflexivity].
Defined.

(** Witness for C4: sizing [unreadable_inside] returns the read error. *)
Lemma C4_size_error_propagates_witness :
  snd (calculateDirSize ["node_modules"%string] unreadable_inside) =
  Some (ErrReadDir ["node_modules"; "cache"]%string).
Proof.
  exact (C4_size_error_propagates ["node_modules"%string] unreadable_inside).
Defined.

(** Witness for C5: the walk of [mixed_project] keeps the sizable match. *)
Lemma C5_size_failure_dropped_witness :
  findNodeModules ["proj"%string] mixed_project mixed_project_found None /\
  In (MkDirectory ["proj"; "node_modules"]%string 100) mixed_project_found.
Proof.
  assert (Hf : findNodeModules ["proj"%string] mixed_project mixed_project_found None).
  { apply findNodeModules_iff; split; [reflexivity|].
    vm_compute; apply Permutation_refl. }
  split; [exact Hf|].
  destruct (C5_size_failure_dropped _ _ _ _ Hf) as (_ & _ & Hin & _).
  apply (Hin _ (NDir "node_modules" 4096 (Some [NFile "x.js" 100]))%string).
  - vm_compute; right; left; reflexivity.
  - reflexivity.
Defined.

End FindClaims.

(* ------------------------------------------------------------------ *)
(** ** formatSize *)

Module FormatFacts.
Import Format.

Lemma append_assoc_s : forall s1 s2 s3 : string,
  (s1 ++ (s2 ++ s3) = (s1 ++ s2) ++ s3)%string.
Proof. induction s1; simpl; intros; [reflexivity|now rewrite IHs1]. Qed.

Lemma list_ascii_append : forall s1 s2 : string,
  list_ascii_of_string (s1 ++ s2) =
  (list_ascii_of_string s1 ++ list_ascii_of_string s2)%list.
Proof. induction s1; simpl; intros; [reflexivity|now rewrite IHs1]. Qed.

Lemma unit_tier_bytes : forall x, unit_tier (x ++ " B") = O.
Proof.
  intro x; unfold unit_tier; rewrite list_ascii_append, rev_app_distr.
  reflexivity.
Qed.

Lemma unit_tier_scaled : forall x c i,
  index_of c (list_ascii_of_string "KMGTPE") = Some i ->
  unit_tier (x ++ " " ++ String c "B") = S i.
Proof.
  intros x c i Hi; unfold unit_tier.
  remember (list_ascii_of_string "KMGTPE") as U.
  rewrite list_ascii_append, rev_app_distr.
  cbn [rev app list_ascii_of_string String.append]; rewrite Hi; reflexivity.
Qed.

(* the loop of formatSize *)

Lemma size_loop_exp_ge : forall f n d e, (e <= snd (size_loop f n d e))%nat.
Proof.
  induction f as [|f IH]; simpl; intros n d e; [lia|].
  destruct (unit <=? n); simpl; [|lia].
  specialize (IH (Z.quot n unit) (wrap64 (d * unit)) (S e)); lia.
Qed.

(** The exponent chosen by the loop grows with [n]. *)
Lemma size_loop_mono : forall f n1 n2 d1 d2 e,
  n1 <= n2 ->
  (snd (size_loop f n1 d1 e) <= snd (size_loop f n2 d2 e))%nat.
Proof.
  induction f as [|f IH]; simpl; intros n1 n2 d1 d2 e Hn; [lia|].
  destruct (unit <=? n2) eqn:E2, (unit <=? n1) eqn:E1; simpl.
  - apply IH, Z.quot_le_mono; unfold unit; lia.
  - pose proof (size_loop_exp_ge f (Z.quot n2 unit) (wrap64 (d2 * unit)) (S e)).
    lia.
  - apply Z.leb_le in E1; apply Z.leb_gt in E2; lia.
  - lia.
Qed.

Lemma iter_shift {A : Type} (g : A -> A) : forall j x,
  Nat.iter j g (g x) = Nat.iter (S j) g x.
Proof. induction j as [|j IH]; simpl; intros x; [reflexivity|now rewrite IH]. Qed.

(** After [j] rounds, [div] has been multiplied [j] times by [unit]. *)
Lemma size_loop_iter : forall f n d e,
  exists j, size_loop f n d e =
            (Nat.iter j (fun x => wrap64 (x * unit)) d, (e + j)%nat).
Proof.
  induction f as [|f IH]; simpl; intros n d e.
  - exists O; rewrite Nat.add_0_r; reflexivity.
  - destruct (unit <=? n).
    + destruct (IH (Z.quot n unit) (wrap64 (d * unit)) (S e)) as [j Hj].
      exists (S j); rewrite Hj; f_equal;
        [apply (iter_shift (fun x => wrap64 (x * unit)))|lia].
    + exists O; rewrite Nat.add_0_r; reflexivity.
Qed.

(** An [int64] input leaves the loop with an exponent of at most 5. *)
Lemma size_loop_bound : forall b, b < 2 ^ 63 ->
  (snd (size_loop 64 (Z.quot b unit) unit 0) <= 5)%nat.
Proof.
  intros b Hb.
  destruct (Z.le_gt_cases b (2 ^ 63 - 1)) as [Hle|Hgt]; [|lia].
  eapply Nat.le_trans.
  - apply size_loop_mono with (n2 := Z.quot (2 ^ 63 - 1) unit) (d2 := unit).
    apply Z.quot_le_mono; unfold unit; lia.
  - vm_compute; lia.
Qed.

(* the digits *)

Lemma all_digits_cons : forall c s,
  all_digits (String c s) = (is_digit c && all_digits s)%bool.
Proof. reflexivity. Qed.

Lemma digit_char_digit : forall d, is_digit (digit_char (d mod 10)) = true.
Proof.
  intro d; pose proof (Z.mod_pos_bound d 10 ltac:(lia)) as H.
  assert (d mod 10 = 0 \/ d mod 10 = 1 \/ d mod 10 = 2 \/ d mod 10 = 3 \/
          d mod 10 = 4 \/ d mod 10 = 5 \/ d mod 10 = 6 \/ d mod 10 = 7 \/
          d mod 10 = 8 \/ d mod 10 = 9) as Hd by lia.
  repeat destruct Hd as [Hd|Hd]; rewrite Hd; reflexivity.
Qed.

Lemma digits_aux_digits : forall f n acc,
  all_digits acc = true -> all_digits (digits_aux f n acc) = true.
Proof.
  induction f as [|f IH]; simpl; intros n acc Ha; auto.
  assert (all_digits (String (digit_char (n mod 10)) acc) = true)
    by (rewrite all_digits_cons, digit_char_digit; auto).
  destruct (n <? 10); auto.
Qed.

Lemma digits_aux_nonempty : forall f n acc,
  acc <> EmptyString -> digits_aux f n acc <> EmptyString.
Proof.
  induction f as [|f IH]; simpl; intros n acc Ha; auto.
  destruct (n <? 10); [discriminate|apply IH; discriminate].
Qed.

Lemma digits_aux_S_nonempty : forall f n acc,
  digits_aux (S f) n acc <> EmptyString.
Proof.
  intros f n acc; simpl.
  destruct (n <? 10); [discriminate|apply digits_aux_nonempty; discriminate].
Qed.

Lemma round_half_even_nonneg : forall a b,
  0 <= a -> 0 < b -> 0 <= round_half_even a b.
Proof.
  intros a b Ha Hb; unfold round_half_even.
  pose proof (Z.div_pos a b Ha Hb).
  destruct (b <? 2 * (a mod b)); [lia|].
  destruct (2 * (a mod b) <? b); [lia|].
  destruct (Z.even (a / b)); lia.
Qed.

Lemma float64_of_int64_nonneg : forall z, 0 <= z -> 0 <= float64_of_int64 z.
Proof.
  intros z Hz; unfold float64_of_int64.
  destruct (Z.log2 z - 52 <=? 0) eqn:E; [lia|].
  apply Z.leb_gt in E.
  pose proof (Z.pow_pos_nonneg 2 (Z.log2 z - 52) ltac:(lia) ltac:(lia)) as Hp.
  pose proof (round_half_even_nonneg z (2 ^ (Z.log2 z - 52)) Hz Hp).
  apply Z.mul_nonneg_nonneg; lia.
Qed.

(** [%.1f] of a non-negative quotient: digits, a point, one digit. *)
Lemma fmt_1f_shape : forall x y, 0 <= x -> 0 < y ->
  exists ip d, fmt_1f x y = (ip ++ String "." (String d EmptyString))%string /\
               ip <> EmptyString /\ all_digits ip = true /\ is_digit d = true.
Proof.
  intros x y Hx Hy; unfold fmt_1f.
  pose proof (round_half_even_nonneg (10 * x) y ltac:(lia) Hy) as Hq.
  set (q := round_half_even (10 * x) y) in *.
  exists (itoa (q / 10)), (digit_char (q mod 10)).
  unfold itoa.
  assert (Hq10 : (q / 10 <? 0) = false) by (apply Z.ltb_ge, Z.div_pos; lia).
  rewrite Hq10.
  split; [reflexivity|split; [|split]].
  - apply (digits_aux_S_nonempty 19).
  - apply digits_aux_digits; reflexivity.
  - apply digit_char_digit.
Qed.

(** Above [unit], formatSize does not panic for an [int64]: it scales by
    [1024^(exp+1)] with [exp <= 5] and prints the unit letter at [exp]. *)
Lemma formatSize_big : forall b, unit <= b < 2 ^ 63 ->
  exists exp c y,
    snd (size_loop 64 (Z.quot b unit) unit 0) = exp /\
    index_of c (list_ascii_of_string "KMGTPE") = Some exp /\ 0 < y /\
    formatSize b = Some (fmt_1f (float64_of_int64 b) y ++ " " ++ String c "B")%string.
Proof.
  intros b Hb.
  pose proof (size_loop_bound b (proj2 Hb)) as Hbound.
  unfold formatSize.
  replace (b <? unit) with false by (symmetry; apply Z.ltb_ge; lia).
  destruct (size_loop_iter 64 (Z.quot b unit) unit 0) as [j Hj].
  rewrite Hj in *; cbn [snd Nat.add] in Hbound |- *.
  exists j, (match String.get j "KMGTPE" with Some c => c | None => "?"%char end),
    (float64_of_int64 (Nat.iter j (fun x => wrap64 (x * unit)) unit)).
  split; [reflexivity|].
  destruct j as [|[|[|[|[|[|j]]]]]]; try lia;
    (split; [reflexivity|split; [vm_compute; reflexivity|reflexivity]]).
Qed.

End FormatFacts.

Module FormatClaims.
Import Format FormatFacts.

Lemma formatSize_small : forall b, b < unit ->
  formatSize b = Some (itoa b ++ " B")%string.
Proof.
  intros b Hb; unfold formatSize.
  replace (b <? unit) with true by (symmetry; apply Z.ltb_lt; lia).
  reflexivity.
Qed.

Lemma formatSize_tier : forall b, b < 2 ^ 63 ->
  exists s, formatSize b = Some s /\
    unit_tier s = (if b <? unit then O
                   else S (snd (size_loop 64 (Z.quot b unit) unit 0))).
Proof.
  intros b Hb.
  destruct (b <? unit) eqn:E.
  - apply Z.ltb_lt in E.
    exists (itoa b ++ " B")%string; split;
      [apply formatSize_small; auto|apply unit_tier_bytes].
  - apply Z.ltb_ge in E.
    destruct (formatSize_big b (conj E Hb)) as (exp & c & y & Hexp & Hc & Hy & Hf).
    eexists; split; [exact Hf|].
    rewrite (unit_tier_scaled _ c exp Hc), Hexp; reflexivity.
Qed.

(** C6: formatSize gives ["0 B"], ["1023 B"], ["1.0 KB"], ["1.5 KB"] and
    ["1.0 MB"] on 0, 1023, 1024, 1536 and 1024*1024; every count below
    1024 is printed as its decimal integer followed by [" B"]; every
    [int64] count from 1024 on is printed as digits, a point, exactly one
    fractional digit, a space and a unit letter followed by ["B"]. *)
Theorem C6_formatSize_vectors :
  formatSize 0 = Some "0 B"%string /\
  formatSize 1023 = Some "1023 B"%string /\
  formatSize 1024 = Some "1.0 KB"%string /\
  formatSize 1536 = Some "1.5 KB"%string /\
  formatSize (1024 * 1024) = Some "1.0 MB"%string /\
  (forall b, b < unit -> formatSize b = Some (itoa b ++ " B")%string) /\
  (forall b, unit <= b < 2 ^ 63 ->
     exists ip d u,
       formatSize b =
         Some (ip ++ String "." (String d (String " " (String u "B"))))%string /\
       ip <> EmptyString /\ all_digits ip = true /\ is_digit d = true).
Proof.
  split; [reflexivity|split; [reflexivity|split; [reflexivity|]]].
  split; [reflexivity|split; [reflexivity|split]].
  - exact formatSize_small.
  - intros b Hb.
    destruct (formatSize_big b Hb) as (exp & c & y & _ & _ & Hy & Hf).
    destruct (fmt_1f_shape (float64_of_int64 b) y
                (float64_of_int64_nonneg b ltac:(unfold unit in Hb; lia)) Hy)
      as (ip & d & Hs & Hne & Hip & Hd).
    exists ip, d, c; split; [|auto].
    rewrite Hf, Hs, <- append_assoc_s; reflexivity.
Qed.

(** C7: for [int64] counts [b1 <= b2], formatSize returns a string for
    both, and the unit tier of the first (B < KB < MB < GB < TB < PB < EB)
    is at most that of the second. *)
Theorem C7_unit_tier_monotone : forall b1 b2,
  in_int64 b1 -> in_int64 b2 -> b1 <= b2 ->
  exists s1 s2, formatSize b1 = Some s1 /\ formatSize b2 = Some s2 /\
                (unit_tier s1 <= unit_tier s2)%nat.
Proof.
  intros b1 b2 H1 H2 Hle; unfold in_int64 in *.
  destruct (formatSize_tier b1 ltac:(lia)) as [s1 [Hs1 Ht1]].
  destruct (formatSize_tier b2 ltac:(lia)) as [s2 [Hs2 Ht2]].
  exists s1, s2; split; [exact Hs1|split; [exact Hs2|]].
  rewrite Ht1, Ht2.
  destruct (Z.ltb_spec b1 unit), (Z.ltb_spec b2 unit); try lia.
  apply le_n_S, size_loop_mono, Z.quot_le_mono; unfold unit; lia.
Qed.

(** C10: every [int64] count below 1024, negative ones included, is
    printed as Go's [%d] of it followed by [" B"] (tier B), with no
    panic and no scaled unit. *)
Theorem C10_formatSize_small_total : forall b,
  in_int64 b -> b < unit ->
  formatSize b = Some (itoa b ++ " B")%string /\
  unit_tier (itoa b ++ " B") = O.
Proof.
  intros b _ Hb; split; [apply formatSize_small; auto|apply unit_tier_bytes].
Qed.

(** Witness for C6: a count below 1024. *)
Lemma C6_formatSize_vectors_witness :
  5 < unit /\ formatSize 5 = Some "5 B"%string.
Proof.
  split; [unfold unit; lia|].
  destruct C6_formatSize_vectors as (_ & _ & _ & _ & _ & H & _).
  rewrite (H 5) by (unfold unit; lia); reflexivity.
Defined.

(** Witness for C7: 1024 and 2048 bytes. *)
Lemma C7_unit_tier_monotone_witness :
  in_int64 1024 /\ in_int64 2048 /\ 1024 <= 2048 /\
  exists s1 s2, formatSize 1024 = Some s1 /\ formatSize 2048 = Some s2 /\
                (unit_tier s1 <= unit_tier s2)%nat.
Proof.
  split; [unfold in_int64; lia|split; [unfold in_int64; lia|split; [lia|]]].
  apply C7_unit_tier_monotone; unfold in_int64; lia.
Defined.

(** Witness for C10: a negative count. *)
Lemma C10_formatSize_small_total_witness :
  in_int64 (-5) /\ -5 < unit /\ formatSize (-5) = Some "-5 B"%string.
Proof.
  split; [unfold in_int64; lia|split; [unfold unit; lia|]].
  destruct (C10_formatSize_small_total (-5) ltac:(unfold in_int64; lia)
              ltac:(unfold unit; lia)) as [H _].
  rewrite H; reflexivity.
Defined.

End FormatClaims.

(* ------------------------------------------------------------------ *)
(** ** The deletion stage *)

Module DeleteFacts.
Import FS Find Delete.

Lemma upd_length {A : Type} : forall (l : list A) i x,
  List.length (upd l i x) = List.length l.
Proof. induction l; destruct i; simpl; auto. Qed.

Lemma nth_upd {A : Type} : forall (l : list A) i j x,
  nth_error (upd l i x) j =
  if Nat.eqb i j then
    match nth_error l j with Some _ => Some x | None => None end
  else nth_error l j.
Proof.
  induction l as [|y l IH]; intros [|i] [|j] x; simpl; auto;
    try (destruct (Nat.eqb _ _); reflexivity).
Qed.

Lemma nth_upd_eq {A : Type} : forall (l : list A) i x y,
  nth_error l i = Some y -> nth_error (upd l i x) i = Some x.
Proof. intros; rewrite nth_upd, Nat.eqb_refl, H; reflexivity. Qed.

Lemma nth_upd_neq {A : Type} : forall (l : list A) i j x,
  i <> j -> nth_error (upd l i x) j = nth_error l j.
Proof.
  intros; rewrite nth_upd; destruct (Nat.eqb_spec i j); [contradiction|auto].
Qed.

Lemma sumf_upd {A : Type} (h : A -> nat) : forall l i x y,
  nth_error l i = Some y ->
  (sumf h (upd l i x) + h y = sumf h l + h x)%nat.
Proof.
  unfold sumf; induction l as [|z l IH]; intros [|i] x y Hy; simpl in *;
    try discriminate.
  - inversion Hy; subst; lia.
  - specialize (IH i x y Hy); lia.
Qed.

Lemma sumf_ge {A : Type} (h : A -> nat) : forall l i y,
  nth_error l i = Some y -> (h y <= sumf h l)%nat.
Proof.
  unfold sumf; induction l as [|z l IH]; intros [|i] y Hy; simpl in *;
    try discriminate.
  - inversion Hy; subst; lia.
  - specialize (IH i y Hy); lia.
Qed.

Lemma count_pos {A : Type} (f : A -> bool) : forall l,
  (0 < count f l)%nat -> exists i y, nth_error l i = Some y /\ f y = true.
Proof.
  unfold count, sumf; induction l as [|z l IH]; simpl; intros H; [lia|].
  destruct (f z) eqn:Ez; [exists O, z; auto|].
  destruct (IH H) as (i & y & Hi & Hy); exists (S i), y; auto.
Qed.

Lemma count_upd {A : Type} (f : A -> bool) : forall l i x y,
  nth_error l i = Some y ->
  (count f (upd l i x) + (if f y then 1 else 0) =
   count f l + (if f x then 1 else 0))%nat.
Proof.
  intros; unfold count.
  exact (sumf_upd (fun z => if f z then 1%nat else O) l i x y H).
Qed.

Lemma count_ge {A : Type} (f : A -> bool) : forall l i y,
  nth_error l i = Some y -> f y = true -> (1 <= count f l)%nat.
Proof.
  intros l i y Hy Hf; unfold count.
  pose proof (sumf_ge (fun x => if f x then 1%nat else O) l i y Hy) as H.
  cbv beta in H; rewrite Hf in H; exact H.
Qed.

Lemma count_zero {A : Type} (f : A -> bool) : forall l,
  (forall i y, nth_error l i = Some y -> f y = false) -> count f l = O.
Proof.
  unfold count, sumf; induction l as [|z l IH]; simpl; intros H; auto.
  rewrite (H O z eq_refl), IH; [reflexivity|].
  intros i y Hy; apply (H (S i)); auto.
Qed.

Lemma nth_repeat {A : Type} : forall (x : A) n i,
  nth_error (repeat x n) i = if Nat.ltb i n then Some x else None.
Proof.
  intros x n; induction n as [|n IH]; intros [|i]; simpl; auto.
Qed.

Lemma is_ph_eq : forall p g, is_ph p g = true <-> g = p.
Proof. intros [] []; simpl; split; congruence. Qed.

(** The invariant holds initially. *)
Lemma Inv_init : forall sl, Inv sl (init sl).
Proof.
  intros sl; unfold Inv, init; simpl.
  assert (Hz : forall f : gphase -> bool, f GNew = false ->
                 count f (repeat GNew (List.length sl)) = O).
  { intros f Hf; apply count_zero; intros i y Hy.
    rewrite nth_repeat in Hy; destruct (Nat.ltb i _); inversion Hy; subst; auto. }
  rewrite repeat_length.
  repeat split; try lia; try constructor; try contradiction.
  - match goal with Hg : nth_error _ _ = Some GNew |- _ => rename Hg into Hn end.
    rewrite nth_repeat in Hn.
    destruct (Nat.ltb_spec i (List.length sl)); [lia|discriminate].
  - intros Hi; rewrite nth_repeat.
    destruct (Nat.ltb_spec i (List.length sl)); [reflexivity|lia].
  - symmetry; apply Hz; reflexivity.
  - symmetry; apply Hz; reflexivity.
  - intros (g & Hg & Ha); rewrite nth_repeat in Hg.
    destruct (Nat.ltb i _); inversion Hg; subst; discriminate.
Qed.

Lemma new_upd : forall ps i x y,
  nth_error ps i = Some y -> y <> GNew -> x <> GNew ->
  forall j, nth_error (upd ps i x) j = Some GNew <-> nth_error ps j = Some GNew.
Proof.
  intros ps i x y Hy Hyn Hxn j.
  destruct (Nat.eq_dec i j) as [<-|Hij].
  - rewrite (nth_upd_eq _ _ _ _ Hy), Hy; split; intro H; inversion H; congruence.
  - rewrite nth_upd_neq; tauto.
Qed.

Lemma att_upd : forall ps i x y,
  nth_error ps i = Some y -> attempted x = attempted y ->
  forall j, (exists g, nth_error (upd ps i x) j = Some g /\ attempted g = true) <->
            (exists g, nth_error ps j = Some g /\ attempted g = true).
Proof.
  intros ps i x y Hy Hxy j.
  destruct (Nat.eq_dec i j) as [<-|Hij].
  - rewrite (nth_upd_eq _ _ _ _ Hy), Hy; split; intros (g & Hg & Ha);
      inversion Hg; subst.
    + exists y; split; congruence.
    + exists x; split; congruence.
  - rewrite nth_upd_neq; tauto.
Qed.

Ltac inv_destruct HI :=
  destruct HI as (Hsel & Hlen & Hpc & Hnew & Hsem & Hsemle & Hwg & Hnd &
                  Hatt & Hlines & Hfin).

Ltac split11 :=
  refine (conj _ (conj _ (conj _ (conj _ (conj _ (conj _ (conj _ (conj _
         (conj _ (conj _ _)))))))))).

(** A goroutine's own step (acquire, release, done) leaves the spawned
    prefix, the attempts and the output as they are. *)
Ltac own_step H x y Hnew Hatt Hfin :=
  pose proof (count_upd holds _ _ x y H) as Ch;
  pose proof (count_upd active _ _ x y H) as Ca;
  pose proof (count_ge active _ _ y H eq_refl) as Cg;
  simpl in Ch, Ca;
  split11;
  [ reflexivity
  | rewrite upd_length; auto
  | auto
  | intro j; rewrite (new_upd _ _ x y H) by discriminate; apply Hnew
  | lia
  | lia
  | lia
  | auto
  | intro j; rewrite (att_upd _ _ x y H eq_refl); apply Hatt
  | auto
  | intros Hf; destruct (Hfin Hf) as (Hc & _); lia ].

(** Every step preserves the invariant. *)
Lemma Inv_step : forall sl s s', Inv sl s -> step s s' -> Inv sl s'.
Proof.
  intros sl s s' HI Hs.
  destruct Hs; unfold Inv in *; simpl in *; inv_destruct HI; subst.
  - (* main starts goroutine k *)
    pose proof (proj1 (Hnew k) H) as Hk.
    pose proof (count_upd holds ps k GWaiting GNew H) as Ch.
    pose proof (count_upd active ps k GWaiting GNew H) as Ca.
    simpl in Ch, Ca.
    split11.
    + reflexivity.
    + rewrite upd_length; auto.
    + lia.
    + intro j; destruct (Nat.eq_dec k j) as [<-|Hkj].
      * rewrite (nth_upd_eq _ _ _ _ H); split; [discriminate|lia].
      * rewrite nth_upd_neq by auto; rewrite Hnew; split; intros; lia.
    + lia.
    + auto.
    + lia.
    + auto.
    + intro j; rewrite (att_upd _ _ GWaiting GNew H eq_refl); apply Hatt.
    + auto.
    + intros Hf; destruct (Hfin Hf) as (_ & Hk' & _); lia.
  - (* goroutine i acquires a permit *)
    own_step H GRemoving GWaiting Hnew Hatt Hfin.
  - (* goroutine i calls RemoveAll and prints its line *)
    pose proof (count_upd holds ps i GRemoved GRemoving H) as Ch.
    pose proof (count_upd active ps i GRemoved GRemoving H) as Ca.
    pose proof (count_ge active ps i GRemoving H eq_refl) as Cg.
    simpl in Ch, Ca.
    split11.
    + reflexivity.
    + rewrite upd_length; auto.
    + auto.
    + intro j; rewrite (new_upd _ _ GRemoved GRemoving H) by discriminate;
        apply Hnew.
    + lia.
    + auto.
    + lia.
    + rewrite map_app; apply NoDup_app; auto.
      * constructor; [intros []|constructor].
      * intros x Hx Hin; simpl in Hin; destruct Hin as [Hxi|[]]; subst x.
        apply Hatt in Hx as (g & Hg & Ha); rewrite H in Hg.
        inversion Hg; subst; discriminate.
    + intro j; rewrite map_app, in_app_iff; simpl; split.
      * intros [Hj|[<-|[]]].
        -- destruct (Nat.eq_dec i j) as [<-|Hij].
           ++ exists GRemoved; split; auto; eapply nth_upd_eq; eauto.
           ++ rewrite nth_upd_neq by auto; apply Hatt; auto.
        -- exists GRemoved; split; auto; eapply nth_upd_eq; eauto.
      * intros (g & Hg & Ha).
        destruct (Nat.eq_dec i j) as [<-|Hij]; [right; left; auto|left].
        rewrite nth_upd_neq in Hg by auto; apply Hatt; eauto.
    + intros j r' Hj; apply in_app_iff in Hj as [Hj|[Hj|[]]].
      * destruct (Hlines j r' Hj) as (d' & Hd' & Hl).
        exists d'; split; auto; apply in_app_iff; auto.
      * inversion Hj; subst.
        exists d; split; auto; apply in_app_iff; simpl; auto.
    + intros Hf; destruct (Hfin Hf) as (Hc & _); lia.
  - (* goroutine i releases its permit *)
    own_step H GReleased GRemoved Hnew Hatt Hfin.
  - (* goroutine i calls deleteWg.Done() *)
    own_step H GDone GReleased Hnew Hatt Hfin.
  - (* deleteWg.Wait() returns; the completion line is printed *)
    split11; auto.
    + intros j r Hj; destruct (Hlines j r Hj) as (d & Hd & Hl).
      exists d; split; auto; apply in_app_iff; auto.
    + intros _; split; [lia|split; [auto|eexists; reflexivity]].
Qed.

Lemma reachable_Inv : forall sl s, reachable sl s -> Inv sl s.
Proof.
  intros sl s Hr; induction Hr; [apply Inv_init|eapply Inv_step; eauto].
Qed.

Lemma find_phase : forall (p : gphase) ps,
  (exists i, nth_error ps i = Some p) \/ (forall i, nth_error ps i <> Some p).
Proof.
  intros p ps.
  destruct (Nat.eq_dec (count (is_ph p) ps) O) as [H0|H0].
  - right; intros i Hi.
    pose proof (count_ge (is_ph p) ps i p Hi (proj2 (is_ph_eq p p) eq_refl)).
    lia.
  - left; destruct (count_pos (is_ph p) ps) as (i & y & Hy & Hp); [lia|].
    apply is_ph_eq in Hp; subst; eauto.
Qed.

Lemma count_zero_at {A : Type} (f : A -> bool) : forall l i y,
  count f l = O -> nth_error l i = Some y -> f y = false.
Proof.
  intros l i y H0 Hy; destruct (f y) eqn:Ef; auto.
  pose proof (count_ge f l i y Hy Ef); lia.
Qed.

(** A state that has not printed the completion line can always move:
    the run never blocks. *)
Lemma progress : forall sl s,
  Inv sl s -> finished s = false -> exists s', step s s'.
Proof.
  intros sl [sl' ps k w n o a f] HI Hf; unfold Inv in HI; simpl in *.
  inv_destruct HI; subst sl' f.
  destruct (Nat.lt_ge_cases k (List.length ps)) as [Hk|Hk].
  - eexists; apply StepSpawn; apply Hnew; lia.
  - assert (k = List.length ps) by lia; subst k.
    destruct (find_phase GRemoving ps) as [(i & Hi)|NR].
    + destruct (nth_error sl i) as [d|] eqn:Hd.
      * eexists; eapply StepRemove with (r := None); eauto.
      * apply nth_error_None in Hd.
        assert (i < List.length ps)%nat
          by (apply nth_error_Some; congruence); lia.
    + destruct (find_phase GRemoved ps) as [(i & Hi)|NRd].
      * pose proof (count_ge holds ps i GRemoved Hi eq_refl).
        destruct n as [|n]; [lia|].
        eexists; eapply StepRelease; eauto.
      * destruct (find_phase GWaiting ps) as [(i & Hi)|NW].
        -- assert (count holds ps = O).
           { apply count_zero; intros j y Hy; destruct y; try reflexivity;
               exfalso; [apply (NR j)|apply (NRd j)]; exact Hy. }
           eexists; eapply StepAcquire; eauto; unfold maxConcurrent; lia.
        -- destruct (find_phase GReleased ps) as [(i & Hi)|NRl].
           ++ pose proof (count_ge active ps i GReleased Hi eq_refl).
              destruct w as [|w]; [lia|].
              eexists; eapply StepDone; eauto.
           ++ assert (count active ps = O).
              { apply count_zero; intros j y Hy; destruct y; try reflexivity;
                  exfalso;
                  first [ exact (NW j Hy) | exact (NR j Hy) | exact (NRd j Hy)
                        | exact (NRl j Hy) ]. }
              assert (Hw0 : w = O) by lia; rewrite Hw0.
              eexists; apply StepWait.
Qed.

(** Every step decreases the termination measure. *)
Lemma measure_step : forall s s', step s s' -> (measure s' < measure s)%nat.
Proof.
  intros s s' Hs; destruct Hs; unfold measure; simpl;
    try (match goal with H : nth_error ?ps ?i = Some ?y |- context [upd ?ps ?i ?x] =>
           pose proof (sumf_upd rank ps i x y H) end; simpl in *);
    lia.
Qed.

Lemma can_finish : forall sl m s, measure s = m -> Inv sl s ->
  exists s', clos_refl_trans _ step s s' /\ finished s' = true.
Proof.
  intros sl m; induction m as [m IH] using (well_founded_induction lt_wf).
  intros s Hm HI.
  destruct (finished s) eqn:Hf.
  - exists s; split; [apply rt_refl|auto].
  - destruct (progress sl s HI Hf) as [s' Hs].
    pose proof (measure_step s s' Hs) as Hlt.
    destruct (IH (measure s') ltac:(lia) s' eq_refl (Inv_step sl s s' HI Hs))
      as (s'' & Hr & Hf'').
    exists s''; split; auto.
    eapply rt_trans; [apply rt_step; exact Hs|exact Hr].
Qed.

(** Once the completion line is printed, every selected index has been
    attempted exactly once, and each attempt's line is in the output. *)
Lemma finished_attempts : forall sl s, Inv sl s -> finished s = true ->
  Permutation (map fst (attempts s)) (seq 0 (List.length sl)).
Proof.
  intros sl s HI Hf; unfold Inv in HI; inv_destruct HI.
  destruct (Hfin Hf) as (Hc & Hk & _).
  apply NoDup_Permutation; [auto|apply seq_NoDup|].
  intros i; rewrite Hatt, in_seq; split.
  - intros (g & Hg & _).
    assert (i < List.length (ph s))%nat by (apply nth_error_Some; congruence).
    lia.
  - intros Hi.
    destruct (nth_error (ph s) i) as [g|] eqn:Hg.
    + exists g; split; auto.
      pose proof (count_zero_at active _ _ _ Hc Hg) as Ha.
      destruct g; try discriminate; auto.
      apply Hnew in Hg; lia.
    + apply nth_error_None in Hg; lia.
Qed.

Lemma finished_lines : forall sl s, Inv sl s -> finished s = true ->
  forall i d, nth_error sl i = Some d ->
  exists r, In (i, r) (attempts s) /\ In (line_of d r) (out s).
Proof.
  intros sl s HI Hf i d Hd.
  pose proof (finished_attempts sl s HI Hf) as Hp.
  unfold Inv in HI; inv_destruct HI.
  assert (Hi : In i (map fst (attempts s))).
  { apply (Permutation_in _ (Permutation_sym Hp)), in_seq.
    assert (i < List.length sl)%nat by (apply nth_error_Some; congruence).
    lia. }
  apply in_map_iff in Hi as ([i' r] & Hi' & Hin); simpl in Hi'; subst i'.
  destruct (Hlines i r Hin) as (d' & Hd' & Hl).
  rewrite Hd in Hd'; inversion Hd'; subst d'.
  eauto.
Qed.

Lemma count_mono {A : Type} (f g : A -> bool) : forall l,
  (forall x, f x = true -> g x = true) -> (count f l <= count g l)%nat.
Proof.
  unfold count, sumf; induction l as [|z l IH]; simpl; intros H; [lia|].
  specialize (IH H); destruct (f z) eqn:Ef;
    [rewrite (H z Ef)|destruct (g z)]; lia.
Qed.

(** Tactics that extend a run held in a [reachable] hypothesis by one
    step of the given kind. *)

Ltac spawn_next :=
  match goal with
  | R : reachable _ (DState ?sl ?ps ?k ?w ?n ?o ?a ?f) |- _ =>
      let R' := fresh "R" in
      pose proof (ReachStep _ _ _ R (StepSpawn sl ps k w n o a f eq_refl)) as R';
      simpl in R'; clear R
  end.
Ltac acquire_next i :=
  match goal with
  | R : reachable _ (DState ?sl ?ps ?k ?w ?n ?o ?a ?f) |- _ =>
      let R' := fresh "R" in
      pose proof (ReachStep _ _ _ R
                    (StepAcquire sl ps k w n o a f i eq_refl
                       ltac:(unfold maxConcurrent; lia))) as R';
      simpl in R'; clear R
  end.

Ltac remove_next i r :=
  match goal with
  | R : reachable _ (DState ?sl ?ps ?k ?w ?n ?o ?a ?f) |- _ =>
      let R' := fresh "R" in
      pose proof (ReachStep _ _ _ R
                    (StepRemove sl ps k w n o a f i _ r eq_refl eq_refl)) as R';
      simpl in R'; clear R
  end.
Ltac release_next i :=
  match goal with
  | R : reachable _ (DState ?sl ?ps ?k ?w (S ?n) ?o ?a ?f) |- _ =>
      let R' := fresh "R" in
      pose proof (ReachStep _ _ _ R (StepRelease sl ps k w n o a f i eq_refl)) as R';
      simpl in R'; clear R
  end.
Ltac done_next i :=
  match goal with
  | R : reachable _ (DState ?sl ?ps ?k (S ?w) ?n ?o ?a ?f) |- _ =>
      let R' := fresh "R" in
      pose proof (ReachStep _ _ _ R (StepDone sl ps k w n o a f i eq_refl)) as R';
      simpl in R'; clear R
  end.
Ltac wait_all :=
  match goal with
  | R : reachable _ (DState ?sl ?ps ?k 0 ?n ?o ?a false) |- _ =>
      let R' := fresh "R" in
      pose proof (ReachStep _ _ _ R (StepWait sl ps n o a)) as R';
      simpl in R'; clear R
  end.

End DeleteFacts.


Module DeleteClaims.
Import FS Find Delete DeleteFacts Samples.

(** C8: from every state the deletion stage can reach, every step
    decreases a measure (so every run is finite), a state with no step left
    is the one that printed the completion line, and that line can always
    be reached.  Once it is printed, each selected index has been attempted
    exactly once (the attempted indices are a permutation of
    [0 .. K-1]), whatever the other attempts returned; a failed entry's line
    is the [RemoveAll] error wrapped with "failed to delete <path>: ", a
    successful one's line is its own report, and all these lines come
    before the completion line. *)
Theorem C8_deletions_independent : forall sl s, reachable sl s ->
  (exists s', clos_refl_trans _ step s s' /\ finished s' = true) /\
  (forall s', step s s' -> (measure s' < measure s)%nat) /\
  ((forall s', ~ step s s') -> finished s = true) /\
  (finished s = true ->
     Permutation (map fst (attempts s)) (seq 0 (List.length sl)) /\
     exists pre, out s = pre ++ [LCompleted] /\
       forall i d, nth_error sl i = Some d ->
         exists r, In (i, r) (attempts s) /\
           match r with
           | None => In (LDeleted d) pre
           | Some e =>
               In (LError (WrapError ("failed to delete " ++ show_path (dpath d)
                                      ++ ": " ++ rm_Error e)%string e)) pre
           end).
Proof.
  intros sl s Hr.
  pose proof (reachable_Inv sl s Hr) as HI.
  split; [|split; [|split]].
  - exact (can_finish sl (measure s) s eq_refl HI).
  - apply measure_step.
  - intros Hstuck; destruct (finished s) eqn:Hf; auto.
    destruct (progress sl s HI Hf) as [s' Hs]; destruct (Hstuck s' Hs).
  - intros Hf; split; [exact (finished_attempts sl s HI Hf)|].
    pose proof (finished_lines sl s HI Hf) as Hl.
    destruct HI as (_ & _ & _ & _ & _ & _ & _ & _ & _ & _ & Hfin).
    destruct (Hfin Hf) as (_ & _ & pre & Hpre).
    exists pre; split; auto.
    intros i d Hd; destruct (Hl i d Hd) as (r & Hin & Hline).
    exists r; split; auto.
    rewrite Hpre in Hline; apply in_app_iff in Hline as [Hline|[Hline|[]]].
    + destruct r; exact Hline.
    + destruct r; discriminate.
Qed.

(** Witness for C8: the run on four selected entries starting from the
    initial state. *)
Lemma C8_deletions_independent_witness :
  reachable four_selected (init four_selected) /\
  exists s', clos_refl_trans _ step (init four_selected) s' /\ finished s' = true.
Proof.
  split; [apply ReachInit|].
  apply (C8_deletions_independent four_selected (init four_selected)
           (ReachInit four_selected)).
Defined.

(** C9: in every reachable state, at most [maxConcurrent] = 3 goroutines
    are in their removal phase, whatever the number of selected entries;
    the semaphore's count equals the number of goroutines that acquired a
    permit and have not yet released it; and once the completion line is
    printed every permit has been released, whether the removal failed or
    not. *)
Theorem C9_concurrency_ceiling : forall sl s, reachable sl s ->
  (count in_removal (ph s) <= maxConcurrent)%nat /\
  sem s = count holds (ph s) /\
  (sem s <= maxConcurrent)%nat /\
  (finished s = true -> sem s = O).
Proof.
  intros sl s Hr.
  pose proof (reachable_Inv sl s Hr) as HI.
  destruct HI as (_ & _ & _ & _ & Hsem & Hle & _ & _ & _ & _ & Hfin).
  pose proof (count_mono in_removal holds (ph s)) as Hm.
  pose proof (count_mono holds active (ph s)) as Ha.
  split; [|split; [auto|split; [auto|]]].
  - assert (count in_removal (ph s) <= count holds (ph s))%nat
      by (apply Hm; intros []; simpl; congruence).
    lia.
  - intros Hf; destruct (Hfin Hf) as (Hc & _).
    assert (count holds (ph s) <= count active (ph s))%nat
      by (apply Ha; intros []; simpl; congruence).
    lia.
Qed.

(** Witness for C9: a run on four selected entries where main's loop has
    started every goroutine and three of them hold a permit and are
    removing their directory, the fourth still waiting on the semaphore. *)
Lemma C9_concurrency_ceiling_witness :
  reachable four_selected
    (DState four_selected [GRemoving; GRemoving; GRemoving; GWaiting] 4 4 3 [] [] false) /\
  count in_removal [GRemoving; GRemoving; GRemoving; GWaiting] = maxConcurrent /\
  (count in_removal [GRemoving; GRemoving; GRemoving; GWaiting] <= maxConcurrent)%nat /\
  3%nat = count holds [GRemoving; GRemoving; GRemoving; GWaiting] /\
  (3 <= maxConcurrent)%nat /\
  (false = true -> 3%nat = O).
Proof.
  pose proof (ReachInit four_selected) as R; unfold init in R; simpl in R.
  spawn_next; spawn_next; spawn_next; spawn_next.
  acquire_next 0%nat; acquire_next 1%nat; acquire_next 2%nat.
  match goal with
  | R : reachable _ ?s |- _ =>
      change (reachable four_selected
        (DState four_selected [GRemoving; GRemoving; GRemoving; GWaiting] 4 4 3 [] [] false))
        in R;
      split; [exact R|split; [reflexivity|]];
      exact (C9_concurrency_ceiling _ _ R)
  end.
Defined.

End DeleteClaims.

(* ================================================================== *)
(** * Further properties of the code *)

(* ------------------------------------------------------------------ *)
(** ** Discovery *)

Module FindMore.
Import FS Walk Find Tree TreeWf WalkFacts FindFacts TreeFacts.

Lemma nodup_str_NoDup : forall l, nodup_str l = true -> NoDup l.
Proof.
  induction l as [|x l IH]; simpl; intros H; [constructor|].
  apply andb_true_iff in H as [H1 H2]; constructor; auto.
  intros Hx; apply negb_true_iff in H1.
  assert (existsb (String.eqb x) l = true)
    by (apply existsb_exists; exists x; split; auto; apply String.eqb_refl).
  congruence.
Qed.

Lemma top_matches_prefix : forall t p q u,
  In (q, u) (top_matches p t) -> exists r, q = p ++ r.
Proof.
  induction t as [n s|n s|n s ks IH|n] using node_ind'; simpl;
    intros p q u Hin; try contradiction.
  destruct (is_target n).
  - destruct Hin as [Heq|[]]; inversion Heq; subst; exists []; symmetry; apply app_nil_r.
  - apply In_flat_map_top in Hin as (k & Hk & Hin).
    rewrite Forall_forall in IH.
    destruct (IH k Hk _ _ _ Hin) as [r ->].
    exists ([Name k] ++ r); rewrite app_assoc; reflexivity.
Qed.

Lemma top_matches_dir : forall t p q u,
  In (q, u) (top_matches p t) -> exists s ks, u = NDir target s (Some ks).
Proof.
  induction t as [n s|n s|n s ks IH|n] using node_ind'; simpl;
    intros p q u Hin; try contradiction.
  destruct (is_target n) eqn:En.
  - destruct Hin as [Heq|[]]; inversion Heq; subst.
    apply String.eqb_eq in En; subst; eauto.
  - apply In_flat_map_top in Hin as (k & Hk & Hin).
    rewrite Forall_forall in IH; exact (IH k Hk _ _ _ Hin).
Qed.

Lemma NoDup_flat_top : forall p ks,
  NoDup (map Name ks) ->
  Forall (fun k => NoDup (map fst (top_matches (p ++ [Name k]) k))) ks ->
  NoDup (map fst (flat_map (fun k => top_matches (p ++ [Name k]) k) ks)).
Proof.
  intros p ks; induction ks as [|k ks IHks]; simpl; intros Hn Hf; [constructor|].
  inversion Hn as [|? ? Hk Hn']; subst.
  inversion Hf as [|? ? Hk1 Hf']; subst.
  rewrite map_app; apply NoDup_app; auto.
  intros x Hx1 Hx2.
  apply in_map_iff in Hx1 as ([q1 u1] & E1 & H1); simpl in E1; subst x.
  apply in_map_iff in Hx2 as ([q2 u2] & E2 & H2); simpl in E2; subst q2.
  apply In_flat_map_top in H2 as (k' & Hk' & H2).
  destruct (top_matches_prefix _ _ _ _ H1) as [r1 E1].
  destruct (top_matches_prefix _ _ _ _ H2) as [r2 E2].
  rewrite E1, <- !app_assoc in E2; apply app_inv_head in E2.
  simpl in E2; inversion E2 as [[Ek]].
  apply Hk; rewrite Ek; apply in_map; exact Hk'.
Qed.

Lemma top_matches_NoDup : forall t p,
  distinct_names t = true -> NoDup (map fst (top_matches p t)).
Proof.
  induction t as [n s|n s|n s ks IH|n] using node_ind'; simpl;
    intros p Hd; try constructor.
  destruct (is_target n); [repeat constructor; intros []|].
  apply andb_true_iff in Hd as [Hn Hall].
  apply NoDup_flat_top; [apply nodup_str_NoDup; exact Hn|].
  rewrite Forall_forall in IH |- *; intros k Hk.
  apply IH; auto.
  rewrite forallb_forall in Hall; auto.
Qed.

Lemma NoDup_appended : forall jobs,
  NoDup (map fst jobs) -> NoDup (map dpath (appended jobs)).
Proof.
  induction jobs as [|j js IH]; simpl; intros Hnd; [constructor|].
  inversion Hnd as [|? ? Hj Hnd']; subst.
  destruct (goroutine j) as [d|] eqn:Eg; simpl; auto.
  constructor; auto.
  intros Hin; apply in_map_iff in Hin as (d' & Ed & Hd').
  apply In_appended in Hd' as (j' & Hj' & Eg').
  apply goroutine_path in Eg, Eg'.
  apply Hj; rewrite <- Eg, <- Ed, Eg'; apply in_map; exact Hj'.
Qed.

Lemma length_appended_le : forall jobs,
  (List.length (appended jobs) <= List.length jobs)%nat.
Proof.
  induction jobs as [|j js IH]; simpl; [lia|].
  destruct (goroutine j); simpl; lia.
Qed.

(** What a discovery result entry is made of. *)
Lemma find_entry : forall rp root res err d,
  findNodeModules rp root res err -> In d res ->
  exists s ks,
    In (dpath d, NDir target s (Some ks)) (top_matches rp root) /\
    failures (dpath d) (NDir target s (Some ks)) = [] /\
    dsize d = wrap64 (file_total (NDir target s (Some ks))).
Proof.
  intros rp root res err d H Hd.
  apply findNodeModules_iff in H as [_ Hp].
  apply (Permutation_in _ Hp), In_appended in Hd as ([q u] & Hj & Eg).
  pose proof (goroutine_path _ _ Eg) as Hq; simpl in Hq.
  destruct (top_matches_dir _ _ _ _ Hj) as (s & ks & ->).
  destruct (failures q (NDir target s (Some ks))) eqn:Ef.
  - rewrite goroutine_some in Eg by exact Ef; inversion Eg; subst; simpl.
    exists s, ks; auto.
  - rewrite goroutine_none in Eg by congruence; discriminate.
Qed.

Lemma find_entry_int64 : forall rp root res err d,
  findNodeModules rp root res err -> In d res -> in_int64 (dsize d).
Proof.
  intros rp root res err d H Hd.
  destruct (find_entry rp root res err d H Hd) as (s & ks & _ & _ & ->).
  apply wrap64_range.
Qed.

(** Every entry [findNodeModules] returns is a [node_modules] directory the
    walk reached (not inside another one), whose whole traversal met no
    error, and its size is the [int64] sum of the file sizes under it. *)
Theorem find_entries_sound : forall rp root res err d,
  findNodeModules rp root res err -> In d res ->
  exists s ks,
    In (dpath d, NDir target s (Some ks)) (top_matches rp root) /\
    failures (dpath d) (NDir target s (Some ks)) = [] /\
    dsize d = wrap64 (file_total (NDir target s (Some ks))).
Proof. exact find_entry. Qed.

(** In a tree whose directories list distinct names, [findNodeModules]
    never returns the same path twice. *)
Theorem find_paths_distinct : forall rp root res err,
  distinct_names root = true -> findNodeModules rp root res err ->
  NoDup (map dpath res).
Proof.
  intros rp root res err Hd H.
  apply findNodeModules_iff in H as [_ Hp].
  apply (Permutation_NoDup (Permutation_sym (Permutation_map dpath Hp))).
  apply NoDup_appended, top_matches_NoDup, Hd.
Qed.

(** When the root itself is named [node_modules], [findNodeModules] returns
    at most one entry, the root (its path is the root path as given):
    nothing inside it is reported. *)
Theorem find_root_is_target : forall rp root res err,
  findNodeModules rp root res err -> Name root = target ->
  (List.length res <= 1)%nat /\ forall d, In d res -> dpath d = rp.
Proof.
  intros rp root res err H Hn.
  apply findNodeModules_iff in H as [_ Hp].
  assert (Hj : forall q u, In (q, u) (top_matches rp root) -> q = rp
               /\ (List.length (top_matches rp root) <= 1)%nat).
  { destruct root as [n s|n s [ks|]|n]; simpl in *; try contradiction.
    unfold is_target; rewrite Hn, String.eqb_refl; simpl.
    intros q u [Heq|[]]; inversion Heq; subst; auto. }
  split.
  - rewrite (Permutation_length Hp).
    eapply Nat.le_trans; [apply length_appended_le|].
    destruct (top_matches rp root) as [|[q u] js] eqn:Et; simpl; [lia|].
    exact (proj2 (Hj q u (or_introl eq_refl))).
  - intros d Hd.
    apply (Permutation_in _ Hp), In_appended in Hd as ([q u] & Hq & Eg).
    apply goroutine_path in Eg; simpl in Eg; rewrite Eg.
    exact (proj1 (Hj q u Hq)).
Qed.

(** Witness for [find_entries_sound]: the entry [proj/node_modules] of
    [small_project]. *)
Lemma find_entries_sound_witness :
  findNodeModules ["proj"%string] Samples.small_project Samples.small_project_found None /\
  In (MkDirectory ["proj"; "node_modules"]%string 2048) Samples.small_project_found /\
  exists s ks,
    In (["proj"; "node_modules"]%string, NDir target s (Some ks))
       (top_matches ["proj"%string] Samples.small_project) /\
    failures ["proj"; "node_modules"]%string (NDir target s (Some ks)) = [] /\
    2048 = wrap64 (file_total (NDir target s (Some ks))).
Proof.
  assert (Hf : findNodeModules ["proj"%string] Samples.small_project Samples.small_project_found None).
  { apply findNodeModules_iff; split; [reflexivity|].
    vm_compute; apply Permutation_refl. }
  assert (Hin : In (MkDirectory ["proj"; "node_modules"]%string 2048)
                   Samples.small_project_found) by (simpl; auto).
  split; [exact Hf|split; [exact Hin|]].
  exact (find_entries_sound _ _ _ _ _ Hf Hin).
Defined.

(** Witness for [find_paths_distinct]: the walk of [small_project]. *)
Lemma find_paths_distinct_witness :
  distinct_names Samples.small_project = true /\
  findNodeModules ["proj"%string] Samples.small_project Samples.small_project_found None /\
  NoDup (map dpath Samples.small_project_found).
Proof.
  assert (Hf : findNodeModules ["proj"%string] Samples.small_project Samples.small_project_found None).
  { apply findNodeModules_iff; split; [reflexivity|].
    vm_compute; apply Permutation_refl. }
  split; [reflexivity|split; [exact Hf|]].
  exact (find_paths_distinct _ _ _ _ (eq_refl : distinct_names Samples.small_project = true) Hf).
Defined.

(** Witness for [find_root_is_target]: a [node_modules] root holding another
    [node_modules] directory; only the root is reported. *)
Lemma find_root_is_target_witness :
  findNodeModules ["node_modules"%string] Samples.nested_modules Samples.nested_modules_found None /\
  Name Samples.nested_modules = target /\
  (List.length Samples.nested_modules_found <= 1)%nat /\
  forall d, In d Samples.nested_modules_found -> dpath d = ["node_modules"%string].
Proof.
  assert (Hf : findNodeModules ["node_modules"%string] Samples.nested_modules Samples.nested_modules_found None).
  { apply findNodeModules_iff; split; [reflexivity|].
    vm_compute; apply Permutation_refl. }
  split; [exact Hf|split; [reflexivity|]].
  exact (find_root_is_target _ _ _ _ Hf eq_refl).
Defined.

End FindMore.

(* ------------------------------------------------------------------ *)
(** ** Size formatting *)

Module FormatMore.
Import Format FormatFacts FormatClaims.

Lemma unit_pow_S : forall k, 0 <= k -> unit ^ (k + 1) = unit * unit ^ k.
Proof. intros k Hk; rewrite Z.pow_add_r, Z.pow_1_r by lia; lia. Qed.

(** The loop divides by [unit] until the quotient is below [unit]: the
    number of rounds [j] is the one with [unit^j <= n < unit^(j+1)]. *)
Lemma size_loop_exp : forall f n d e,
  1 <= n -> n < unit ^ (Z.of_nat f + 1) ->
  exists j, snd (size_loop f n d e) = (e + j)%nat /\
            unit ^ Z.of_nat j <= n < unit ^ (Z.of_nat j + 1).
Proof.
  induction f as [|f IH]; intros n d e H1 H2.
  - exists O; simpl; split; [lia|]; simpl in H2; lia.
  - cbn [size_loop]; destruct (unit <=? n) eqn:E.
    + apply Z.leb_le in E.
      assert (Hq : Z.quot n unit = n / unit)
        by (apply Z.quot_div_nonneg; unfold unit in *; lia).
      assert (Hu : 0 < unit) by (unfold unit; lia).
      assert (Hm : unit * (n / unit) <= n) by (apply Z.mul_div_le; lia).
      pose proof (Z.mod_pos_bound n unit Hu) as Hr.
      pose proof (Z.div_mod n unit ltac:(lia)) as Hdm.
      destruct (IH (Z.quot n unit) (wrap64 (d * unit)) (S e)) as (j & Hj & Hb).
      * rewrite Hq; apply Z.div_le_lower_bound; lia.
      * rewrite Hq; apply Z.div_lt_upper_bound; [lia|].
        rewrite Nat2Z.inj_succ, <- Z.add_1_r, unit_pow_S in H2 by lia.
        exact H2.
      * exists (S j); split; [rewrite Hj; lia|].
        rewrite Hq in Hb.
        rewrite Nat2Z.inj_succ, <- Z.add_1_r, !unit_pow_S by lia.
        rewrite unit_pow_S in Hb by lia.
        nia.
    + exists O; simpl; split; [lia|]; apply Z.leb_gt in E; lia.
Qed.

Lemma quot_bounds : forall b, unit <= b < 2 ^ 63 ->
  exists j, snd (size_loop 64 (Z.quot b unit) unit 0) = j /\
            unit ^ (Z.of_nat j + 1) <= b < unit ^ (Z.of_nat j + 2).
Proof.
  intros b Hb.
  assert (Hu : 0 < unit) by (unfold unit; lia).
  assert (Hq : Z.quot b unit = b / unit)
    by (apply Z.quot_div_nonneg; unfold unit in *; lia).
  assert (Hbig : 2 ^ 63 <= unit ^ (Z.of_nat 64 + 1)) by (unfold unit; simpl; lia).
  destruct (size_loop_exp 64 (Z.quot b unit) unit 0) as (j & Hj & Hl).
  - rewrite Hq; apply Z.div_le_lower_bound; lia.
  - rewrite Hq; apply Z.div_lt_upper_bound; [lia|].
    assert (unit ^ (Z.of_nat 64 + 1) <= unit * unit ^ (Z.of_nat 64 + 1))
      by nia.
    lia.
  - exists j; split; [exact Hj|].
    rewrite Hq in Hl.
    assert (Hm : unit * (b / unit) <= b) by (apply Z.mul_div_le; lia).
    pose proof (Z.mod_pos_bound b unit Hu) as Hr.
    pose proof (Z.div_mod b unit ltac:(lia)) as Hdm.
    replace (Z.of_nat j + 2) with ((Z.of_nat j + 1) + 1) by lia.
    rewrite !(Z.pow_add_r unit (Z.of_nat j + 1) 1), Z.pow_1_r by lia.
    rewrite (Z.pow_add_r unit (Z.of_nat j) 1), Z.pow_1_r in * by lia.
    nia.
Qed.

(** [div] after [j <= 5] rounds is [unit^(j+1)]: no overflow. *)
Lemma iter_div : forall j, (j <= 5)%nat ->
  Nat.iter j (fun x => wrap64 (x * unit)) unit = unit ^ (Z.of_nat j + 1).
Proof.
  induction j as [|j IH]; intros Hj; [reflexivity|].
  simpl Nat.iter; rewrite IH by lia.
  rewrite wrap64_id.
  - rewrite Nat2Z.inj_succ, <- Z.add_1_r, (Z.pow_add_r _ (Z.of_nat j + 1) 1),
      Z.pow_1_r by lia; reflexivity.
  - assert (Hp : unit ^ (Z.of_nat j + 1) <= unit ^ 5)
      by (apply Z.pow_le_mono_r; unfold unit; lia).
    assert (0 < unit ^ (Z.of_nat j + 1)) by (apply Z.pow_pos_nonneg; unfold unit; lia).
    unfold in_int64, unit in *; simpl in Hp; nia.
Qed.

Lemma rhe_ge_div : forall a m, 0 < m -> a / m <= round_half_even a m.
Proof.
  intros a m Hm; unfold round_half_even.
  destruct (m <? 2 * (a mod m)); [lia|].
  destruct (2 * (a mod m) <? m); [lia|].
  destruct (Z.even (a / m)); lia.
Qed.

Lemma rhe_le_div : forall a m, 0 < m -> round_half_even a m <= a / m + 1.
Proof.
  intros a m Hm; unfold round_half_even.
  destruct (m <? 2 * (a mod m)); [lia|].
  destruct (2 * (a mod m) <? m); [lia|].
  destruct (Z.even (a / m)); lia.
Qed.

(** Rounding to a multiple of [m] keeps the side of any multiple of [m]. *)
Lemma rhe_ge : forall a m k, 0 < m -> k * m <= a -> k <= round_half_even a m.
Proof.
  intros a m k Hm Hk.
  pose proof (rhe_ge_div a m Hm).
  assert (k <= a / m) by (apply Z.div_le_lower_bound; lia).
  lia.
Qed.

Lemma rhe_le : forall a m k, 0 < m -> a <= k * m -> round_half_even a m <= k.
Proof.
  intros a m k Hm Hk.
  assert (Hq : a / m <= k) by (apply Z.div_le_upper_bound; lia).
  destruct (Z.eq_dec (a / m) k) as [Eq|Ne].
  - pose proof (Z.div_mod a m ltac:(lia)) as Hdm.
    pose proof (Z.mod_pos_bound a m Hm) as Hr.
    assert (Hr0 : a mod m = 0) by nia.
    unfold round_half_even; rewrite Hr0.
    replace (m <? 2 * 0) with false by (symmetry; apply Z.ltb_ge; lia).
    replace (2 * 0 <? m) with true by (symmetry; apply Z.ltb_lt; lia).
    lia.
  - pose proof (rhe_le_div a m Hm); lia.
Qed.

Lemma float64_pow2 : forall k, 0 <= k -> float64_of_int64 (2 ^ k) = 2 ^ k.
Proof.
  intros k Hk; unfold float64_of_int64.
  rewrite Z.log2_pow2 by lia.
  destruct (k - 52 <=? 0) eqn:E; [reflexivity|].
  apply Z.leb_gt in E.
  assert (Hs : 2 ^ k = 2 ^ 52 * 2 ^ (k - 52))
    by (rewrite <- Z.pow_add_r by lia; f_equal; lia).
  pose proof (Z.pow_pos_nonneg 2 (k - 52) ltac:(lia) ltac:(lia)) as Hp.
  assert (Hr : round_half_even (2 ^ k) (2 ^ (k - 52)) = 2 ^ 52).
  { apply Z.le_antisymm.
    - apply rhe_le; lia.
    - apply rhe_ge; lia. }
  rewrite Hr; lia.
Qed.

(** [float64(bytes)] stays between two powers of two [2^a <= bytes <= 2^c]
    with [c] at most ten above the size of [bytes]. *)
Lemma float64_between : forall b a c,
  0 <= a -> 2 ^ a <= b -> b <= 2 ^ c -> Z.log2 b - 52 <= a -> a <= c ->
  2 ^ a <= float64_of_int64 b <= 2 ^ c.
Proof.
  intros b a c Ha Hab Hbc He Hac; unfold float64_of_int64.
  destruct (Z.log2 b - 52 <=? 0) eqn:E; [lia|].
  apply Z.leb_gt in E.
  set (e := Z.log2 b - 52) in *.
  pose proof (Z.pow_pos_nonneg 2 e ltac:(lia) ltac:(lia)) as Hp.
  assert (Ea : 2 ^ a = 2 ^ (a - e) * 2 ^ e)
    by (rewrite <- Z.pow_add_r by lia; f_equal; lia).
  assert (Ec : 2 ^ c = 2 ^ (c - e) * 2 ^ e)
    by (rewrite <- Z.pow_add_r by lia; f_equal; lia).
  split.
  - rewrite Ea; apply Z.mul_le_mono_nonneg_r; [lia|].
    apply rhe_ge; lia.
  - rewrite Ec; apply Z.mul_le_mono_nonneg_r; [lia|].
    apply rhe_le; lia.
Qed.

(** formatSize picks the largest unit that does not exceed the count: for
    [1 <= bytes < 2^63], with tier [t] (0 for B, 1 for KB, ..., 6 for EB),
    [1024^t <= bytes < 1024^(t+1)]. *)
Theorem formatSize_unit_fits : forall b, 1 <= b < 2 ^ 63 ->
  exists s, formatSize b = Some s /\
    unit ^ Z.of_nat (unit_tier s) <= b < unit ^ (Z.of_nat (unit_tier s) + 1).
Proof.
  intros b Hb.
  destruct (formatSize_tier b ltac:(lia)) as (s & Hs & Ht).
  exists s; split; [exact Hs|rewrite Ht].
  destruct (Z.ltb_spec b unit) as [Hl|Hl]; [simpl; unfold unit in *; lia|].
  destruct (quot_bounds b ltac:(lia)) as (j & -> & Hj).
  rewrite Nat2Z.inj_succ, <- Z.add_1_r.
  replace (Z.of_nat j + 1 + 1) with (Z.of_nat j + 2) by lia; exact Hj.
Qed.

(** For every count from 1024 up to the largest [int64], formatSize prints
    a number with one decimal, a space, one of the unit letters K, M, G, T,
    P, E and then B; the number, read as [q/10] with [q] its digits without
    the point, lies between 1.0 and 1024.0: never below 1.0 and never above
    1024.0 (rounding can give 1024.0 instead of 1.0 of the next unit). *)
Theorem formatSize_value_range : forall b, unit <= b < 2 ^ 63 ->
  exists q c,
    formatSize b = Some (itoa (q / 10) ++ "." ++ String (digit_char (q mod 10))
                         EmptyString ++ " " ++ String c "B")%string /\
    In c ["K"; "M"; "G"; "T"; "P"; "E"]%char /\
    10 <= q <= 10240.
Proof.
  intros b Hb.
  destruct (quot_bounds b Hb) as (j & Hj & Hjb).
  pose proof (size_loop_bound b ltac:(lia)) as H5; rewrite Hj in H5.
  destruct (size_loop_iter 64 (Z.quot b unit) unit 0) as (j' & Hit).
  rewrite Hit in Hj; simpl in Hj; subst j'.
  rewrite iter_div in Hit by exact H5.
  assert (Hc : exists c, String.get j "KMGTPE"%string = Some c /\
                         In c ["K"; "M"; "G"; "T"; "P"; "E"]%char).
  { destruct j as [|[|[|[|[|[|j]]]]]]; simpl;
      try (eexists; split; [reflexivity|simpl; tauto]); lia. }
  destruct Hc as (c & Hc & Hcu).
  exists (round_half_even (10 * float64_of_int64 b)
            (float64_of_int64 (unit ^ (Z.of_nat j + 1)))), c.
  assert (Hpow : forall k, 0 <= k -> unit ^ k = 2 ^ (10 * k))
    by (intros k Hk; unfold unit; rewrite Z.pow_mul_r by lia; reflexivity).
  assert (Hd : float64_of_int64 (unit ^ (Z.of_nat j + 1)) = unit ^ (Z.of_nat j + 1))
    by (rewrite Hpow, float64_pow2 by lia; reflexivity).
  split.
  - unfold formatSize.
    replace (b <? unit) with false by (symmetry; apply Z.ltb_ge; lia).
    rewrite Hit, Nat.add_0_l, Hc; unfold fmt_1f.
    rewrite <- !append_assoc_s; reflexivity.
  - split; [exact Hcu|].
    rewrite Hd.
    set (D := unit ^ (Z.of_nat j + 1)) in *.
    assert (HD : 0 < D) by (apply Z.pow_pos_nonneg; unfold unit; lia).
    assert (Hl2 : Z.log2 b < 10 * (Z.of_nat j + 2)).
    { apply Z.log2_lt_pow2; [lia|].
      rewrite <- Hpow by lia; lia. }
    assert (Hf : 2 ^ (10 * (Z.of_nat j + 1)) <= float64_of_int64 b
                 <= 2 ^ (10 * (Z.of_nat j + 2))).
    { apply float64_between; try lia.
      - rewrite <- Hpow by lia; lia.
      - rewrite <- Hpow by lia; lia. }
    assert (E2 : unit ^ (Z.of_nat j + 2) = unit * D)
      by (unfold D; replace (Z.of_nat j + 2) with ((Z.of_nat j + 1) + 1) by lia;
          apply unit_pow_S; lia).
    rewrite <- !Hpow in Hf by lia.
    fold D in Hf; rewrite E2 in Hf.
    split; [apply rhe_ge|apply rhe_le]; unfold unit in *; lia.
Qed.

(** Witness for [formatSize_unit_fits]: 5000 bytes, in tier KB. *)
Lemma formatSize_unit_fits_witness :
  1 <= 5000 < 2 ^ 63 /\ formatSize 5000 = Some "4.9 KB"%string /\
  exists s, formatSize 5000 = Some s /\
    unit ^ Z.of_nat (unit_tier s) <= 5000 < unit ^ (Z.of_nat (unit_tier s) + 1).
Proof.
  split; [lia|split; [vm_compute; reflexivity|]].
  apply formatSize_unit_fits; lia.
Defined.

(** Witness for [formatSize_value_range]: one byte below 1 MB is printed
    as 1024.0 KB. *)
Lemma formatSize_value_range_witness :
  unit <= 1048575 < 2 ^ 63 /\ formatSize 1048575 = Some "1024.0 KB"%string /\
  exists q c,
    formatSize 1048575 = Some (itoa (q / 10) ++ "." ++ String (digit_char (q mod 10))
                               EmptyString ++ " " ++ String c "B")%string /\
    In c ["K"; "M"; "G"; "T"; "P"; "E"]%char /\
    10 <= q <= 10240.
Proof.
  split; [unfold unit; lia|split; [vm_compute; reflexivity|]].
  apply formatSize_value_range; unfold unit; lia.
Defined.

End FormatMore.

(* ------------------------------------------------------------------ *)
(** ** The deletion stage *)

Module DeleteMore.
Import FS Find Delete DeleteFacts.

(** The output so far is one line per attempt, in the order the attempts
    ran, then the completion line once the run has finished. *)
Lemma out_shape : forall sl s, reachable sl s ->
  exists pre,
    out s = pre ++ (if finished s then [LCompleted] else []) /\
    Forall2 (fun ir l => exists d, nth_error sl (fst ir) = Some d /\
                                   l = line_of d (snd ir))
            (attempts s) pre.
Proof.
  intros sl s Hr; induction Hr as [|s s' Hr IH Hs].
  - exists []; simpl; split; [reflexivity|constructor].
  - pose proof (reachable_Inv sl s Hr) as HI.
    destruct IH as (pre & Ho & Hf2).
    destruct Hs; simpl in *; try (exists pre; split; assumption).
    + destruct HI as (Hsel & _ & _ & _ & _ & _ & _ & _ & _ & _ & Hfin).
      simpl in Hsel; subst sl0.
      destruct f.
      * destruct (Hfin eq_refl) as (Hc & _); simpl in Hc.
        pose proof (count_ge active ps i GRemoving H eq_refl); lia.
      * exists (pre ++ [line_of d r]); split.
        -- rewrite Ho, !app_nil_r; reflexivity.
        -- apply Forall2_app; auto.
           constructor; [exists d; auto|constructor].
    + exists pre; split; [rewrite Ho, app_nil_r; reflexivity|assumption].
Qed.

Lemma Forall2_in_r {A B : Type} (R : A -> B -> Prop) : forall l1 l2 y,
  Forall2 R l1 l2 -> In y l2 -> exists x, In x l1 /\ R x y.
Proof.
  intros l1 l2 y H; induction H as [|x y' l1 l2 Hxy H IH]; simpl; [intros []|].
  intros [<-|Hy]; [exists x; auto|].
  destruct (IH Hy) as (x' & Hx' & Hr); exists x'; auto.
Qed.

Lemma Forall2_flat_map : forall sl (irs : list (nat * option rmerr)) pre,
  Forall2 (fun ir l => exists d, nth_error sl (fst ir) = Some d /\
                                 l = line_of d (snd ir)) irs pre ->
  pre = flat_map (fun ir => match nth_error sl (fst ir) with
                            | Some d => [line_of d (snd ir)]
                            | None => []
                            end) irs.
Proof.
  intros sl irs pre H; induction H as [|ir l irs pre (d & Hd & ->) _ IH]; simpl;
    [reflexivity|].
  rewrite Hd, IH; reflexivity.
Qed.

Lemma line_of_not_completed : forall d r, line_of d r <> LCompleted.
Proof. intros d [r|]; unfold line_of, deleteDirectory; discriminate. Qed.

Lemma count_repeat_new : forall f n,
  f GNew = false -> count f (repeat GNew n) = O.
Proof.
  intros f n Hf; apply count_zero; intros i y Hy.
  rewrite nth_repeat in Hy; destruct (Nat.ltb i n); inversion Hy; subst; auto.
Qed.

(** When the deletion stage ends it has printed exactly [K + 1] lines for
    [K] selected entries: the completion line last, and nowhere else, and
    before it, in some order, one line per removal attempt, the success or
    error line of that entry for the outcome of its [RemoveAll]. *)
Theorem delete_output_lines : forall sl s,
  reachable sl s -> finished s = true ->
  exists pre,
    out s = pre ++ [LCompleted] /\
    List.length pre = List.length sl /\
    ~ In LCompleted pre /\
    Permutation pre
      (flat_map (fun ir => match nth_error sl (fst ir) with
                           | Some d => [line_of d (snd ir)]
                           | None => []
                           end) (attempts s)).
Proof.
  intros sl s Hr Hf.
  destruct (out_shape sl s Hr) as (pre & Ho & H2); rewrite Hf in Ho.
  exists pre; split; [exact Ho|split; [|split; [|rewrite (Forall2_flat_map _ _ _ H2); apply Permutation_refl]]].
  - pose proof (finished_attempts sl s (reachable_Inv sl s Hr) Hf) as Hp.
    apply Permutation_length in Hp.
    rewrite length_map, length_seq in Hp.
    rewrite <- (Forall2_length H2); exact Hp.
  - intros Hin.
    destruct (Forall2_in_r _ _ _ _ H2 Hin) as (ir & _ & d & _ & E).
    exact (line_of_not_completed d (snd ir) (eq_sym E)).
Qed.

(** The pool is really three wide: for every selection of [K] entries some
    run reaches a point where [min K 3] deletions are in their removal
    phase at once. *)
Theorem delete_ceiling_reached : forall sl,
  exists s, reachable sl s /\
            count in_removal (ph s) = Nat.min (List.length sl) maxConcurrent.
Proof.
  intros sl.
  pose proof (ReachInit sl) as R; unfold init in R.
  destruct sl as [|d0 [|d1 [|d2 rest]]]; simpl in R.
  - eexists; split; [exact R|reflexivity].
  - spawn_next; acquire_next 0%nat.
    eexists; split; [eassumption|reflexivity].
  - spawn_next; spawn_next; acquire_next 0%nat; acquire_next 1%nat.
    eexists; split; [eassumption|reflexivity].
  - spawn_next; spawn_next; spawn_next.
    acquire_next 0%nat; acquire_next 1%nat; acquire_next 2%nat.
    eexists; split; [eassumption|].
    simpl ph; unfold count, sumf; simpl.
    change (fold_right (fun x n => ((if in_removal x then 1 else 0) + n)%nat) O
              (repeat GNew (List.length rest))) with
           (count in_removal (repeat GNew (List.length rest))).
    rewrite count_repeat_new by reflexivity.
    simpl List.length; unfold maxConcurrent; lia.
Qed.

(** Witness for [delete_output_lines]: a run on four selected entries
    where three removals start at once, the second entry's removal fails
    first, and the fourth entry gets its permit once one is released. *)
Lemma delete_output_lines_witness :
  exists s,
    reachable Samples.four_selected s /\ finished s = true /\
    exists pre,
      out s = pre ++ [LCompleted] /\
      List.length pre = 4%nat /\
      ~ In LCompleted pre /\
      Permutation pre
        (flat_map (fun ir => match nth_error Samples.four_selected (fst ir) with
                             | Some d => [line_of d (snd ir)]
                             | None => []
                             end) (attempts s)).
Proof.
  pose proof (ReachInit Samples.four_selected) as R; unfold init in R; simpl in R.
  spawn_next; spawn_next; spawn_next; spawn_next.
  acquire_next 0%nat; acquire_next 1%nat; acquire_next 2%nat.
  remove_next 1%nat
    (Some (PathError "unlinkat" "proj/b/node_modules" "permission denied")).
  release_next 1%nat; done_next 1%nat.
  acquire_next 3%nat.
  remove_next 0%nat (@None rmerr); remove_next 3%nat (@None rmerr);
    remove_next 2%nat (@None rmerr).
  release_next 0%nat; release_next 2%nat; release_next 3%nat.
  done_next 3%nat; done_next 0%nat; done_next 2%nat.
  wait_all.
  match goal with
  | R : reachable _ ?s |- _ =>
      exists s; split; [exact R|split; [reflexivity|]];
      exact (delete_output_lines _ _ R eq_refl)
  end.
Defined.

End DeleteMore.

(* ------------------------------------------------------------------ *)
(** ** [main] *)

Module MainMore.
Import FS Find Tree Format Delete Main FindFacts FormatClaims FindMore MainSamples.

Lemma total_size_pick : forall dirs idxs acc, in_int64 acc ->
  total_size dirs idxs acc =
  option_map (fun ds => wrap64 (acc + fold_right Z.add 0 (map dsize ds)))
             (pick dirs idxs).
Proof.
  intros dirs idxs; induction idxs as [|i is IH]; simpl; intros acc Ha.
  - rewrite Z.add_0_r, wrap64_id by exact Ha; reflexivity.
  - destruct (nth_error dirs i) as [d|]; [|reflexivity].
    rewrite IH by apply wrap64_range.
    destruct (pick dirs is) as [ds|]; simpl; [|reflexivity].
    rewrite wrap64_add_l, Z.add_assoc; reflexivity.
Qed.

Lemma total_size_none : forall dirs idxs acc,
  total_size dirs idxs acc = None ->
  exists i, In i idxs /\ (List.length dirs <= i)%nat.
Proof.
  intros dirs idxs; induction idxs as [|i is IH]; simpl; intros acc H;
    [discriminate|].
  destruct (nth_error dirs i) eqn:E.
  - destruct (IH _ H) as (j & Hj & Hl); eauto.
  - exists i; split; auto; apply nth_error_None; exact E.
Qed.

Lemma pick_length : forall dirs idxs sel,
  pick dirs idxs = Some sel -> List.length sel = List.length idxs.
Proof.
  intros dirs idxs; induction idxs as [|i is IH]; simpl; intros sel H.
  - inversion H; reflexivity.
  - destruct (nth_error dirs i); [|discriminate].
    destruct (pick dirs is) as [ds|] eqn:E; inversion H; subst.
    simpl; f_equal; auto.
Qed.

Lemma formatSize_some : forall b, in_int64 b -> exists s, formatSize b = Some s.
Proof.
  intros b Hb; unfold in_int64 in Hb.
  destruct (formatSize_tier b ltac:(lia)) as (s & Hs & _); eauto.
Qed.

Lemma options_some : forall dirs,
  (forall d, In d dirs -> in_int64 (dsize d)) -> exists opts, options dirs = Some opts.
Proof.
  induction dirs as [|d ds IH]; simpl; intros H; [eauto|].
  destruct (formatSize_some (dsize d) (H d (or_introl eq_refl))) as [s Hs].
  destruct IH as [os Hos]; [intros; apply H; auto|].
  unfold option_label; rewrite Hs, Hos; eauto.
Qed.

Lemma unwalkable_find : forall rp t res err,
  findNodeModules rp t res err -> unwalkable t = true -> res = [] /\ err = None.
Proof.
  intros rp t res err H Hu.
  apply findNodeModules_iff in H as [He Hp]; split; auto.
  destruct t as [n s|n s [ks|]|n]; try discriminate;
    simpl in Hp; apply Permutation_nil, Permutation_sym, Hp.
Qed.

Lemma main_walk_error_from : forall args getwd find select confirm e,
  In (MWalkError e) (fst (main args getwd find select confirm)) ->
  exists root dirs, root_of args getwd = inl root /\ find root = (dirs, Some e).
Proof.
  intros args getwd find select confirm e H; unfold main in H.
  destruct (root_of args getwd) as [root|w] eqn:Er;
    [|simpl in H; destruct H as [H|[]]; discriminate].
  destruct (find root) as [dirs err] eqn:Ef.
  destruct err as [e'|].
  - simpl in H; destruct H as [H|[H|[]]]; [discriminate|].
    inversion H; subst; eauto.
  - exfalso.
    repeat match type of H with
           | context [match ?x with _ => _ end] => destruct x
           end;
      simpl in H; repeat destruct H as [H|H]; try discriminate; auto.
Qed.

(** [main] starts the deletion goroutines only after a walk without error
    found entries, the user selected a non-empty list of indices and
    confirmed; they are started on exactly the selected entries, in
    selection order, and what [main] printed and showed is the scan line,
    the multi-select prompt listing every found entry, the confirmation
    prompt and the deletion line, both showing the number of selected
    entries and the formatted [int64] sum of their sizes. *)
Theorem main_deletes_only_confirmed : forall args getwd find select confirm msgs sel,
  main args getwd find select confirm = (msgs, StartDelete sel) ->
  exists root dirs idxs opts ts,
    root_of args getwd = inl root /\ find root = (dirs, None) /\ dirs <> [] /\
    options dirs = Some opts /\
    select = inl idxs /\ idxs <> [] /\ confirm = inl true /\
    pick dirs idxs = Some sel /\ List.length sel = List.length idxs /\
    formatSize (wrap64 (fold_right Z.add 0 (map dsize sel))) = Some ts /\
    msgs = [MScanning root; MSelectPrompt (List.length dirs) opts;
            MConfirmPrompt (List.length idxs) ts; MDeleting (List.length idxs) ts].
Proof.
  intros args getwd find select confirm msgs sel H; unfold main in H.
  destruct (root_of args getwd) as [root|w] eqn:Er; [|discriminate].
  destruct (find root) as [dirs err] eqn:Ef.
  destruct err as [e|]; [discriminate|].
  destruct dirs as [|d0 ds]; [discriminate|].
  destruct (options (d0 :: ds)) as [opts|] eqn:Eo; [|discriminate].
  destruct select as [idxs|e]; [|discriminate].
  destruct idxs as [|i0 is]; [discriminate|].
  destruct (total_size (d0 :: ds) (i0 :: is) 0) as [tot|] eqn:Et; [|discriminate].
  destruct (formatSize tot) as [ts|] eqn:Ets; [|discriminate].
  destruct confirm as [[|]|e]; try discriminate.
  destruct (pick (d0 :: ds) (i0 :: is)) as [sel'|] eqn:Ep; [|discriminate].
  inversion H; subst msgs sel'.
  rewrite total_size_pick, Ep in Et by (unfold in_int64; lia).
  simpl in Et; inversion Et; subst tot.
  exists root, (d0 :: ds), (i0 :: is), opts, ts.
  repeat split; auto; try discriminate.
  apply (pick_length _ _ _ Ep).
Qed.

(** Run on what [findNodeModules] returns, [main] never prints
    "Error walking directory" (that branch is dead), and when the root
    cannot be walked it prints that no [node_modules] directory was found
    in the root and returns, without prompting. *)
Theorem main_walk_error_dead : forall args getwd find select confirm rp t,
  (forall root, root_of args getwd = inl root ->
     findNodeModules rp t (fst (find root)) (snd (find root))) ->
  (forall e, ~ In (MWalkError e) (fst (main args getwd find select confirm))) /\
  (unwalkable t = true -> forall root, root_of args getwd = inl root ->
     main args getwd find select confirm = ([MScanning root; MNoneFound root], Return)).
Proof.
  intros args getwd find select confirm rp t Hf; split.
  - intros e Hin.
    destruct (main_walk_error_from _ _ _ _ _ _ Hin) as (root & dirs & Er & Ef).
    apply Hf, findNodeModules_iff in Er as [He _].
    rewrite Ef in He; discriminate.
  - intros Hu root Er.
    pose proof (unwalkable_find _ _ _ _ (Hf root Er) Hu) as [Hr He].
    unfold main; rewrite Er.
    destruct (find root) as [dirs err]; simpl in Hr, He; subst; reflexivity.
Qed.

(** Run on what [findNodeModules] returns, [main] panics only when the
    selection holds an index out of range of the found entries: every
    size it formats is an [int64], so formatting never panics. *)
Theorem main_panics_only_on_bad_index : forall args getwd find select confirm rp t msgs,
  (forall root, root_of args getwd = inl root ->
     findNodeModules rp t (fst (find root)) (snd (find root))) ->
  main args getwd find select confirm = (msgs, Panic) ->
  exists root idxs i,
    root_of args getwd = inl root /\ select = inl idxs /\ In i idxs /\
    (List.length (fst (find root)) <= i)%nat.
Proof.
  intros args getwd find select confirm rp t msgs Hf H; unfold main in H.
  destruct (root_of args getwd) as [root|w] eqn:Er; [|discriminate].
  pose proof (Hf root eq_refl) as Hfr.
  destruct (find root) as [dirs err] eqn:Ef; simpl in Hfr |- *.
  destruct err as [e|]; [discriminate|].
  destruct dirs as [|d0 ds]; [discriminate|].
  destruct (options_some (d0 :: ds)) as [opts Eo];
    [intros d Hd; exact (find_entry_int64 _ _ _ _ d Hfr Hd)|].
  rewrite Eo in H.
  destruct select as [idxs|e]; [|discriminate].
  destruct idxs as [|i0 is]; [discriminate|].
  destruct (total_size (d0 :: ds) (i0 :: is) 0) as [tot|] eqn:Et.
  - exfalso.
    rewrite total_size_pick in Et by (unfold in_int64; lia).
    destruct (pick (d0 :: ds) (i0 :: is)) as [sel|] eqn:Ep;
      simpl in Et; [|discriminate].
    assert (Ht : in_int64 tot) by (inversion Et; apply wrap64_range).
    destruct (formatSize_some tot Ht) as [ts Ets].
    rewrite Ets in H.
    destruct confirm as [[|]|e]; simpl in H; discriminate.
  - destruct (total_size_none _ _ _ Et) as (i & Hi & Hl).
    exists root, (i0 :: is), i; rewrite Ef; repeat split; auto.
Qed.

(** Witness for [main_deletes_only_confirmed]: both entries of
    [small_project] selected and the deletion confirmed. *)
Lemma main_deletes_only_confirmed_witness :
  main sample_args (inr "no getwd"%string) sample_find (inl [1%nat; 0%nat]) (inl true) =
    ([MScanning "proj";
      MSelectPrompt 2 ["proj/app/node_modules (1.2 KB)"; "proj/node_modules (2.0 KB)"];
      MConfirmPrompt 2 "3.2 KB"; MDeleting 2 "3.2 KB"]%string,
     StartDelete [MkDirectory ["proj"; "node_modules"] 2048;
                  MkDirectory ["proj"; "app"; "node_modules"] 1200]%string) /\
  exists root dirs idxs opts ts,
    root_of sample_args (inr "no getwd"%string) = inl root /\
    sample_find root = (dirs, None) /\ dirs <> [] /\
    options dirs = Some opts /\
    @inl (list nat) string [1%nat; 0%nat] = inl idxs /\ idxs <> [] /\
    @inl bool string true = inl true /\
    pick dirs idxs = Some [MkDirectory ["proj"; "node_modules"] 2048;
                           MkDirectory ["proj"; "app"; "node_modules"] 1200]%string /\
    List.length [MkDirectory ["proj"; "node_modules"] 2048;
                 MkDirectory ["proj"; "app"; "node_modules"] 1200]%string = List.length idxs /\
    formatSize (wrap64 (fold_right Z.add 0
                  (map dsize [MkDirectory ["proj"; "node_modules"] 2048;
                              MkDirectory ["proj"; "app"; "node_modules"] 1200]%string)))
      = Some ts /\
    [MScanning "proj";
     MSelectPrompt 2 ["proj/app/node_modules (1.2 KB)"; "proj/node_modules (2.0 KB)"];
     MConfirmPrompt 2 "3.2 KB"; MDeleting 2 "3.2 KB"]%string =
    [MScanning root; MSelectPrompt (List.length dirs) opts;
     MConfirmPrompt (List.length idxs) ts; MDeleting (List.length idxs) ts].
Proof.
  assert (E : main sample_args (inr "no getwd"%string) sample_find
                (inl [1%nat; 0%nat]) (inl true) =
    ([MScanning "proj";
      MSelectPrompt 2 ["proj/app/node_modules (1.2 KB)"; "proj/node_modules (2.0 KB)"];
      MConfirmPrompt 2 "3.2 KB"; MDeleting 2 "3.2 KB"]%string,
     StartDelete [MkDirectory ["proj"; "node_modules"] 2048;
                  MkDirectory ["proj"; "app"; "node_modules"] 1200]%string))
    by (vm_compute; reflexivity).
  split; [exact E|].
  exact (main_deletes_only_confirmed _ _ _ _ _ _ _ E).
Defined.

(** Witness for [main_walk_error_dead]: a root that does not exist. *)
Lemma main_walk_error_dead_witness :
  (forall root, root_of sample_args (inr "no getwd"%string) = inl root ->
     findNodeModules ["missing"%string] Samples.missing_root (fst (missing_find root)) (snd (missing_find root))) /\
  unwalkable Samples.missing_root = true /\
  main sample_args (inr "no getwd"%string) missing_find (inl []) (inl false) =
    ([MScanning "proj"; MNoneFound "proj"]%string, Return).
Proof.
  assert (Hf : forall root, root_of sample_args (inr "no getwd"%string) = inl root ->
     findNodeModules ["missing"%string] Samples.missing_root (fst (missing_find root)) (snd (missing_find root))).
  { intros root _; apply findNodeModules_iff; split; [reflexivity|].
    vm_compute; apply perm_nil. }
  split; [exact Hf|split; [reflexivity|]].
  destruct (main_walk_error_dead _ _ _ (inl []) (inl false) _ _ Hf) as [_ H].
  apply H; reflexivity.
Defined.

(** Witness for [main_panics_only_on_bad_index]: index 7 selected among the
    two entries of [small_project]. *)
Lemma main_panics_only_on_bad_index_witness :
  (forall root, root_of sample_args (inr "no getwd"%string) = inl root ->
     findNodeModules ["proj"%string] Samples.small_project (fst (sample_find root)) (snd (sample_find root))) /\
  main sample_args (inr "no getwd"%string) sample_find (inl [7%nat]) (inl true) =
    ([MScanning "proj";
      MSelectPrompt 2 ["proj/app/node_modules (1.2 KB)"; "proj/node_modules (2.0 KB)"]]%string,
     Panic) /\
  exists root idxs i,
    root_of sample_args (inr "no getwd"%string) = inl root /\
    @inl (list nat) string [7%nat] = inl idxs /\ In i idxs /\
    (List.length (fst (sample_find root)) <= i)%nat.
Proof.
  assert (Hf : forall root, root_of sample_args (inr "no getwd"%string) = inl root ->
     findNodeModules ["proj"%string] Samples.small_project (fst (sample_find root)) (snd (sample_find root))).
  { intros root _; apply findNodeModules_iff; split; [reflexivity|].
    vm_compute; apply Permutation_refl. }
  assert (E : main sample_args (inr "no getwd"%string) sample_find (inl [7%nat]) (inl true) =
    ([MScanning "proj";
      MSelectPrompt 2 ["proj/app/node_modules (1.2 KB)"; "proj/node_modules (2.0 KB)"]]%string,
     Panic)) by (vm_compute; reflexivity).
  split; [exact Hf|split; [exact E|]].
  exact (main_panics_only_on_bad_index _ _ _ _ _ _ _ _ Hf E).
Defined.

End MainMore.
